(** * polyReorder: a shallow embedding of src/polyReorder.cpp

    The module re-indexes the vertices of a polygon mesh and transplants
    the per-corner normals, normal locks, edge smoothing and UV sets of a
    target mesh onto the rebuilt mesh.  Every function of the source file
    is embedded below.  Maya's mesh store is external: it is taken as a
    parameter (an abstract store with a query view and an execution
    function for mutating calls), and every mutating call is logged, so
    that statements about call order and error propagation can be made.

    Conventions.
    - [MIntArray] is [list Z]; [MPointArray], [MVectorArray] and the float
      arrays are lists over abstract element types: the code only moves
      these values around.
    - Array accesses through [operator[]] and [set] are unchecked in the
      source.  The embedding is total: an access outside the array makes
      the computation return [None].  An [int] used as an index is in
      range when it is non-negative and below the length.
    - [setLength] keeps the common prefix; cells it adds are uninitialised
      in the source and hold an arbitrary filler here. *)

From stdpp Require Import base option list gmap strings.
From Stdlib Require Import ZArith Lia.

Local Open Scope Z_scope.

(** ** Status codes *)

(** Modelled from the spec: [MStatus] and the macros
    CHECK_MSTATUS_AND_RETURN_IT and CHECK_MSTATUS come from Maya's
    headers, which are not among the sources.  The spec (7) has a store
    call either succeed or report a failure that the caller propagates;
    the first macro leaves the function with an error status, the second
    only reports it. *)
Inductive MStatus : Type :=
| kSuccess
| kFailure
| kInsufficientMemory
| kInvalidParameter
| kLicenseFailure
| kUnknownParameter
| kNotImplemented
| kNotFound
| kEndOfFile.

#[global] Instance MStatus_eq_dec : EqDecision MStatus.
Proof. solve_decision. Defined.

(** [if (!s)] and the CHECK_MSTATUS macros test for an error status. *)
Definition status_error (s : MStatus) : bool :=
  match s with kSuccess => false | _ => true end.

(** ** Arrays *)

(** Modelled from the spec: Maya's array classes are declared in headers
    that are not among the sources.  The spec (4.2) calls an index outside
    the array an out-of-bounds write; here such an access ends the
    computation with [None].  [array_get] and [array_set] take an [int]
    used as index, [array_put] an unsigned counter. *)
Definition array_get {A} (l : list A) (k : Z) : option A :=
  if decide (0 <= k) then l !! Z.to_nat k else None.

Definition array_set {A} (l : list A) (k : Z) (x : A) : option (list A) :=
  if decide (0 <= k < Z.of_nat (length l)) then Some (<[Z.to_nat k := x]> l)
  else None.

Definition array_put {A} (l : list A) (i : nat) (x : A) : option (list A) :=
  if decide (i < length l)%nat then Some (<[i := x]> l) else None.

(** [setLength]: shrink, or grow with filler cells. *)
Definition setLength {A} (filler : A) (n : nat) (l : list A) : list A :=
  resize n filler l.

(** ** Loops *)

(** [for (uint i = start; i < start + n; i++) body]: [n] counts the
    iterations that remain. *)
Fixpoint for_range {T} (i n : nat) (body : nat -> T -> option T) (s : T)
  : option T :=
  match n with
  | O => Some s
  | S n' =>
      match body i s with
      | Some s' => for_range (S i) n' body s'
      | None => None
      end
  end.

(** Iteration over a sequence handed out by an iterator, with the position
    of the current item. *)
Fixpoint for_each {T X} (i : nat) (xs : list X)
  (body : nat -> X -> T -> option T) (s : T) : option T :=
  match xs with
  | [] => Some s
  | x :: xs' =>
      match body i x s with
      | Some s' => for_each (S i) xs' body s'
      | None => None
      end
  end.

(** ** The edge key *)

(** Modelled from the spec: [twoIntKey] is declared in polyReorder.h, which
    is not among the sources.  The spec (4.1) describes it as packing two
    32-bit vertex indices into one 64-bit key, [(v0 << 32) | v1], without
    sorting the pair. *)
Definition twoIntKey (v0 v1 : Z) : Z :=
  Z.lor (Z.shiftl (v0 mod 2 ^ 32) 32) (v1 mod 2 ^ 32).

(** ** Face-vertex enumeration (pure) *)

(** State of the nested loop of [getFaceVertexList]: the running corner
    index [idx] and the two arrays. *)
Definition fvl_state : Type := nat * (list Z * list Z).

Definition getFaceVertexList_inner (polyConnects : list Z) (i : nat)
  (j : nat) (s : fvl_state) : option fvl_state :=
  let '(idx, (faceList, vertexList)) := s in
  match array_put faceList idx (Z.of_nat i) with
  | None => None
  | Some faceList =>
      match polyConnects !! idx with
      | None => None
      | Some v =>
          match array_put vertexList idx v with
          | None => None
          | Some vertexList => Some (S idx, (faceList, vertexList))
          end
      end
  end.

Definition getFaceVertexList_outer (polyCounts polyConnects : list Z)
  (i : nat) (s : fvl_state) : option fvl_state :=
  match polyCounts !! i with
  | None => None
  | Some c =>
      (* [for (int j = 0; j < polyCounts[i]; j++, idx++)]: no iteration
         when the count is not positive *)
      for_range 0 (Z.to_nat c) (getFaceVertexList_inner polyConnects i) s
  end.

Definition getFaceVertexList (filler : Z) (polyCounts polyConnects : list Z)
  (faceList vertexList : list Z) : option (list Z * list Z) :=
  let numPolys := length polyCounts in
  let numNormals := length polyConnects in
  let faceList := setLength filler numNormals faceList in
  let vertexList := setLength filler numNormals vertexList in
  match for_range 0 numPolys (getFaceVertexList_outer polyCounts polyConnects)
          (O, (faceList, vertexList)) with
  | None => None
  | Some (_, r) => Some r
  end.

(** ** The mesh store *)

(** An [MObject] is a handle into the store. *)
Definition MObject : Type := nat.

(** One edge as [MItMeshEdge] presents it. *)
Record Edge : Type := mkEdge {
  edge_index0 : Z;
  edge_index1 : Z;
  edge_isSmooth : bool
}.

Section Types.

(** Element types of the point, vector and float arrays. *)
Context {Point FloatPoint Vector Float : Type}.

(** Modelled from the spec: [UVSetData] is declared in polyReorder.h,
    which is not among the sources.  The spec (4.7) gives one entry per
    named UV set with its name, coordinate arrays and per-corner
    assignment arrays; the field names are those the source uses. *)
Record UVSetData : Type := mkUVSetData {
  name : string;
  uArray : list Float;
  vArray : list Float;
  uvCounts : list Z;
  uvIds : list Z
}.

Definition emptyUVSetData : UVSetData := mkUVSetData "" [] [] [] [].

(** What the queries of [MFnMesh], [MItMeshPolygon] and [MItMeshEdge]
    answer for one mesh.  A query with out-parameters is given by its
    status and the arrays it leaves in them. *)
Record MeshData : Type := mkMeshData {
  mesh_numVertices : nat;
  mesh_numPolygons : nat;
  mesh_getPoints : list Point;
  mesh_getVertices : MStatus * (list Z * list Z);
  (* one entry per face: the normal [getNormal] yields at each corner *)
  mesh_polygons : list (list Vector);
  mesh_getNormalIds : MStatus * (list Z * list Z);
  mesh_isNormalLocked : Z -> bool;
  mesh_edges : list Edge;
  mesh_numUVSets : nat;
  mesh_getUVSetNames : list string;
  mesh_getUVs : string -> MStatus * (list Float * list Float);
  mesh_getAssignedUVs : string -> MStatus * (list Z * list Z)
}.

(** Mutating calls issued against the store. *)
Inductive Call : Type :=
| FnCreate (numVertices numPolys : nat) (points : list Point)
           (polyCounts polyConnects : list Z) (parentOrOwner : MObject)
| FnCreateInPlace (mesh : MObject) (numVertices numPolys : nat)
           (floatPoints : list FloatPoint) (polyCounts polyConnects : list Z)
| FnSetFaceVertexNormals (mesh : MObject) (normals : list Vector)
           (faceList vertexList : list Z)
| FnUnlockFaceVertexNormals (mesh : MObject) (faceList vertexList : list Z)
| FnLockFaceVertexNormals (mesh : MObject) (faceList vertexList : list Z)
| ItSetSmoothing (mesh : MObject) (edge : nat) (smooth : bool)
| FnCreateUVSet (mesh : MObject) (uvSetName : string)
| FnClearUVs (mesh : MObject) (uvSet : string)
| FnSetUVs (mesh : MObject) (uArray vArray : list Float) (uvSet : string)
| FnAssignUVs (mesh : MObject) (uvCounts uvIds : list Z) (uvSet : string).

(** A logged call with the status the store answered. *)
Definition Event : Type := Call * MStatus.

End Types.

Arguments UVSetData : clear implicits.
Arguments MeshData : clear implicits.
Arguments Call : clear implicits.
Arguments Event : clear implicits.

(** ** Vocabulary of the statements *)

(** [pointOrder] is a bijection over [0, n). *)
Definition bijection_on (n : nat) (pointOrder : list Z) : Prop :=
  length pointOrder = n /\ NoDup pointOrder /\
  Forall (fun k => 0 <= k < Z.of_nat n) pointOrder.

#[global] Instance bijection_on_dec (n : nat) (pointOrder : list Z) :
  Decision (bijection_on n pointOrder).
Proof. unfold bijection_on. apply _. Defined.

(** [inverse] undoes [pointOrder]: [inverse[pointOrder[i]] = i]. *)
Definition inverse_of (pointOrder inverse : list Z) : Prop :=
  length inverse = length pointOrder /\
  forall (i : nat) (k : Z),
    pointOrder !! i = Some k -> inverse !! Z.to_nat k = Some (Z.of_nat i).

(** Sum of the per-face vertex counts. *)
Definition sumCounts (polyCounts : list Z) : Z := foldr Z.add 0 polyCounts.

(** Owning face of every face-corner: face [f] contributes [counts[f]]
    consecutive entries, faces in order, the first face being [f]. *)
Fixpoint cornerFaces (f : nat) (polyCounts : list Z) : list Z :=
  match polyCounts with
  | [] => []
  | c :: rest => replicate (Z.to_nat c) (Z.of_nat f) ++ cornerFaces (S f) rest
  end.

(** The corner at position [i] is locked when its flag is 1. *)
Definition locked_at (lockedList : list Z) (i : nat) : Prop :=
  lockedList !! i = Some 1.

#[global] Instance locked_at_dec (lockedList : list Z) (i : nat) :
  Decision (locked_at lockedList i).
Proof. unfold locked_at. apply _. Defined.

(** Positions of the locked and of the unlocked corners among the first
    [n], in increasing order. *)
Definition lockedCorners (lockedList : list Z) (n : nat) : list nat :=
  filter (locked_at lockedList) (seq 0 n).

Definition unlockedCorners (lockedList : list Z) (n : nat) : list nat :=
  filter (fun i => ~ locked_at lockedList i) (seq 0 n).

(** The entries of an array at the given positions. *)
Definition cornersAt (positions : list nat) (l : list Z) : list Z :=
  omap (fun i => l !! i) positions.

(** Decidable side conditions are settled by evaluation. *)
Ltac by_evaluation := apply (bool_decide_unpack _); vm_compute; exact I.

(** ** Test meshes

    A small store used to run the functions on concrete inputs: points,
    vectors and floats are labelled by integers, a store maps handles to
    mesh data, and the answer to every mutating call is fixed by a table. *)

Module Example.

Definition Mesh : Type := MeshData Z Z Z.
Definition Store : Type := MObject -> Mesh.

Definition view (st : Store) (mesh : MObject) : Mesh := st mesh.

(** A store that never changes and answers calls by [answer]. *)
Definition exec (answer : Call Z Z Z Z -> MStatus) (c : Call Z Z Z Z)
  (st : Store) : Store * MStatus := (st, answer c).

Definition createdName (st : Store) (mesh : MObject) (n : string) : string :=
  n.

Definition allSucceed (c : Call Z Z Z Z) : MStatus := kSuccess.

(** A tetrahedron: four vertices, four triangles, one UV set. *)
Definition tetrahedron : Mesh :=
  {| mesh_numVertices := 4;
     mesh_numPolygons := 4;
     mesh_getPoints := [100; 101; 102; 103];
     mesh_getVertices :=
       (kSuccess, ([3; 3; 3; 3], [0; 1; 2; 0; 3; 1; 1; 3; 2; 2; 3; 0]));
     mesh_polygons :=
       [[10; 11; 12]; [20; 21; 22]; [30; 31; 32]; [40; 41; 42]];
     mesh_getNormalIds :=
       (kSuccess, ([3; 3; 3; 3], [0; 1; 2; 3; 4; 5; 6; 7; 8; 9; 10; 11]));
     mesh_isNormalLocked := fun id => Z.even id;
     mesh_edges :=
       [mkEdge 0 1 true; mkEdge 1 2 false; mkEdge 2 0 true;
        mkEdge 0 3 true; mkEdge 3 1 false; mkEdge 3 2 true];
     mesh_numUVSets := 1;
     mesh_getUVSetNames := ["map1"%string];
     mesh_getUVs := fun _ => (kSuccess, ([1; 2; 3], [4; 5; 6]));
     mesh_getAssignedUVs :=
       fun _ => (kSuccess, ([3; 3; 3; 3], [0; 1; 2; 0; 2; 1; 1; 2; 0; 2; 0; 1])) |}.

Definition tetraStore : Store := fun _ => tetrahedron.

Definition tetraOrder : list Z := [2; 0; 3; 1].



(** A single quad face; corners 0 and 2 are to be locked. *)
Definition quad : Mesh :=
  {| mesh_numVertices := 4;
     mesh_numPolygons := 1;
     mesh_getPoints := [200; 201; 202; 203];
     mesh_getVertices := (kSuccess, ([4], [0; 1; 2; 3]));
     mesh_polygons := [[50; 51; 52; 53]];
     mesh_getNormalIds := (kSuccess, ([4], [0; 1; 2; 3]));
     mesh_isNormalLocked := fun id => Z.even id;
     mesh_edges :=
       [mkEdge 0 1 false; mkEdge 1 2 true; mkEdge 2 3 true; mkEdge 3 0 true];
     mesh_numUVSets := 2;
     mesh_getUVSetNames := ["map1"%string; "detail"%string];
     mesh_getUVs := fun _ => (kSuccess, ([1; 2; 3; 4], [5; 6; 7; 8]));
     mesh_getAssignedUVs := fun _ => (kSuccess, ([4], [0; 1; 2; 3])) |}.

Definition quadStore : Store := fun _ => quad.

Definition quadLocks : list Z := [1; 0; 1; 0].

(** A triangle, to stand next to the quad as a mesh of another shape. *)
Definition triangle : Mesh :=
  {| mesh_numVertices := 3;
     mesh_numPolygons := 1;
     mesh_getPoints := [300; 301; 302];
     mesh_getVertices := (kSuccess, ([3], [0; 1; 2]));
     mesh_polygons := [[60; 61; 62]];
     mesh_getNormalIds := (kSuccess, ([3], [0; 1; 2]));
     mesh_isNormalLocked := fun _ => false;
     mesh_edges := [mkEdge 0 1 true; mkEdge 1 2 true; mkEdge 2 0 true];
     mesh_numUVSets := 1;
     mesh_getUVSetNames := ["map1"%string];
     mesh_getUVs := fun _ => (kSuccess, ([1; 2; 3], [4; 5; 6]));
     mesh_getAssignedUVs := fun _ => (kSuccess, ([3], [0; 1; 2])) |}.



(** The tetrahedron after its points went through [tetraOrder]. *)
Definition remappedTetra : Mesh :=
  {| mesh_numVertices := 4;
     mesh_numPolygons := 4;
     mesh_getPoints := [101; 103; 100; 102];
     mesh_getVertices :=
       (kSuccess, ([3; 3; 3; 3], [2; 0; 3; 2; 1; 0; 0; 1; 3; 3; 1; 2]));
     mesh_polygons := mesh_polygons tetrahedron;
     mesh_getNormalIds := mesh_getNormalIds tetrahedron;
     mesh_isNormalLocked := mesh_isNormalLocked tetrahedron;
     mesh_edges :=
       [mkEdge 2 0 true; mkEdge 0 3 false; mkEdge 3 2 true;
        mkEdge 2 1 true; mkEdge 1 0 false; mkEdge 1 3 true];
     mesh_numUVSets := mesh_numUVSets tetrahedron;
     mesh_getUVSetNames := mesh_getUVSetNames tetrahedron;
     mesh_getUVs := mesh_getUVs tetrahedron;
     mesh_getAssignedUVs := mesh_getAssignedUVs tetrahedron |}.

(** Handle 0 is the tetrahedron, every other handle the remapped one. *)
Definition pairStore : Store :=
  fun mesh => match mesh with O => tetrahedron | _ => remappedTetra end.

(** The inverse of [tetraOrder]. *)
Definition tetraInverse : list Z := [1; 3; 0; 2].

(** A point order that sends every vertex to index 0. *)
Definition constantOrder : list Z := [0; 0; 0; 0].


(** Handle 0 is the triangle, every other handle the quad. *)
Definition triangleQuadStore : Store :=
  fun mesh => match mesh with O => triangle | _ => quad end.

(** The identity order on four vertices. *)
Definition identityOrder : list Z := [0; 1; 2; 3].

End Example.

(** ** The functions of polyReorder.cpp *)

Section PolyReorder.

Context {Point FloatPoint Vector Float : Type}.

Abbreviation UVSetData := (UVSetData Float).
Abbreviation MeshData := (MeshData Point Vector Float).
Abbreviation Call := (Call Point FloatPoint Vector Float).
Abbreviation Event := (Event Point FloatPoint Vector Float).

(** [MFloatPoint::setCast]. *)
Variable setCast : Point -> FloatPoint.

(** Content of cells that the source leaves uninitialised, and of the
    cells of a freshly constructed [MFloatPointArray]. *)
Variable fillPoint : Point.
Variable fillVector : Vector.
Variable fillInt : Z.
Variable floatOrigin : FloatPoint.

Context {Store : Type}.
Variable view : Store -> MObject -> MeshData.
Variable exec : Call -> Store -> Store * MStatus.
(** [createUVSet] is handed the set name as a modifiable argument, and
    its declaration is not among the sources: the name the call leaves in
    that argument is a parameter of the model. *)
Variable createdName : Store -> MObject -> string -> string.

Record World : Type := mkWorld { store : Store; log : list Event }.

(** Computations that issue store calls; [None] is an out-of-range
    array access. *)
Definition M (A : Type) : Type := World -> option (A * World).

Definition ret {A} (a : A) : M A := fun w => Some (a, w).

Definition bind {A B} (m : M A) (k : A -> M B) : M B :=
  fun w => match m w with Some (a, w') => k a w' | None => None end.

Definition lift {A} (o : option A) : M A :=
  fun w => match o with Some a => Some (a, w) | None => None end.

Definition getStore : M Store := fun w => Some (store w, w).

Definition call (c : Call) : M MStatus :=
  fun w => let '(st, status) := exec c (store w) in
           Some (status, mkWorld st (log w ++ [(c, status)])).

(** CHECK_MSTATUS_AND_RETURN_IT and RETURN_IF_ERROR: leave the function
    with the status when it is an error. *)
Definition check (status : MStatus) (k : M MStatus) : M MStatus :=
  if status_error status then ret status else k.

Notation "'let*' x ':=' m 'in' k" := (bind m (fun x => k))
  (at level 10, x pattern, m at level 100, k at level 200, only parsing).

(** *** getPoints *)

Definition getPoints_body (inPoints : list Point) (pointOrder : list Z)
  (i : nat) (outPoints : list Point) : option (list Point) :=
  p ← inPoints !! i;
  k ← pointOrder !! i;
  array_set outPoints k p.

Definition getPoints (st : Store) (mesh : MObject) (pointOrder : list Z)
  (outPoints : list Point) : option (MStatus * list Point) :=
  let numVertices := mesh_numVertices (view st mesh) in
  let outPoints := setLength fillPoint numVertices outPoints in
  let inPoints := mesh_getPoints (view st mesh) in
  outPoints ← for_range 0 numVertices (getPoints_body inPoints pointOrder)
                outPoints;
  Some (kSuccess, outPoints).

(** *** getPolys *)

Definition getPolys_body (pointOrder : list Z) (i : nat)
  (polyConnects : list Z) : option (list Z) :=
  v ← polyConnects !! i;
  w ← array_get pointOrder v;
  array_put polyConnects i w.

Definition getPolys (st : Store) (mesh : MObject) (pointOrder : list Z)
  (reorderPoints : bool) : option (MStatus * (list Z * list Z)) :=
  let '(_, (polyCounts, polyConnects)) := mesh_getVertices (view st mesh) in
  polyConnects ←
    (if reorderPoints
     then for_range 0 (length polyConnects) (getPolys_body pointOrder)
            polyConnects
     else Some polyConnects);
  Some (kSuccess, (polyCounts, polyConnects)).

(** *** getFaceVertexNormals *)

(** The inner loop over the corners of one face; the state is the running
    index [i] and the array. *)
Definition getFaceVertexNormals_inner (poly : list Vector) (v : nat)
  (s : nat * list Vector) : option (nat * list Vector) :=
  n ← poly !! v;
  vertexNormals ← array_put s.2 s.1 n;
  Some (S s.1, vertexNormals).

Definition getFaceVertexNormals_outer (f : nat) (poly : list Vector)
  (s : nat * list Vector) : option (nat * list Vector) :=
  let numVertices := length poly in
  for_range 0 numVertices (getFaceVertexNormals_inner poly) s.

Definition getFaceVertexNormals (st : Store) (mesh : MObject)
  (vertexNormals : list Vector) : option (MStatus * list Vector) :=
  s ← for_each 0 (mesh_polygons (view st mesh)) getFaceVertexNormals_outer
        (O, vertexNormals);
  Some (kSuccess, s.2).

(** *** setFaceVertexNormals *)

Definition setFaceVertexNormals (mesh : MObject)
  (polyCounts polyConnects : list Z) (vertexNormals : list Vector)
  : M MStatus :=
  let* (faceList, vertexList) :=
    lift (getFaceVertexList fillInt polyCounts polyConnects [] []) in
  let* status := call (FnSetFaceVertexNormals mesh vertexNormals faceList
                         vertexList) in
  check status (
  let* status := call (FnUnlockFaceVertexNormals mesh faceList vertexList) in
  check status (
  ret kSuccess)).

(** *** getFaceVertexLocks *)

Definition getFaceVertexLocks_body (m : MeshData) (normalIds : list Z)
  (i : nat) (lockedList : list Z) : option (list Z) :=
  id ← normalIds !! i;
  array_put lockedList i (if mesh_isNormalLocked m id then 1 else 0).

Definition getFaceVertexLocks (st : Store) (mesh : MObject)
  (lockedList : list Z) : option (MStatus * list Z) :=
  let m := view st mesh in
  let '(status, (normalCounts, normalIds)) := mesh_getNormalIds m in
  if status_error status then Some (status, lockedList) else
  let numNormals := length normalIds in
  let lockedList := setLength fillInt numNormals lockedList in
  lockedList ← for_range 0 numNormals (getFaceVertexLocks_body m normalIds)
                 lockedList;
  Some (kSuccess, lockedList).

(** *** setFaceVertexLocks *)

(** Local state of the partition loop: the two fill counts and the four
    arrays. *)
Record lock_state : Type := mkLockState {
  ls_L : nat;
  ls_UL : nat;
  ls_lockedFaceList : list Z;
  ls_lockedVertList : list Z;
  ls_unlockedFaceList : list Z;
  ls_unlockedVertList : list Z
}.

Definition setFaceVertexLocks_body (lockedList faceList vertexList : list Z)
  (i : nat) (s : lock_state) : option lock_state :=
  flag ← lockedList !! i;
  if decide (flag = 1) then
    f ← faceList !! i;
    lf ← array_put (ls_lockedFaceList s) (ls_L s) f;
    v ← vertexList !! i;
    lv ← array_put (ls_lockedVertList s) (ls_L s) v;
    Some (mkLockState (S (ls_L s)) (ls_UL s) lf lv
            (ls_unlockedFaceList s) (ls_unlockedVertList s))
  else
    f ← faceList !! i;
    uf ← array_put (ls_unlockedFaceList s) (ls_UL s) f;
    v ← vertexList !! i;
    uv ← array_put (ls_unlockedVertList s) (ls_UL s) v;
    Some (mkLockState (ls_L s) (S (ls_UL s)) (ls_lockedFaceList s)
            (ls_lockedVertList s) uf uv).

Definition setFaceVertexLocks (mesh : MObject) (lockedList : list Z)
  : M MStatus :=
  let* st := getStore in
  let '(status, (polyCounts, polyConnects)) :=
    mesh_getVertices (view st mesh) in
  check status (
  let* (faceList, vertexList) :=
    lift (getFaceVertexList fillInt polyCounts polyConnects [] []) in
  let numNormals := length polyConnects in
  let* s :=
    lift (for_range 0 numNormals
            (setFaceVertexLocks_body lockedList faceList vertexList)
            (mkLockState 0 0 (replicate numNormals 0)
               (replicate numNormals 0) (replicate numNormals 0)
               (replicate numNormals 0))) in
  let* status :=
    (if decide (ls_UL s = O) then ret status
     else call (FnUnlockFaceVertexNormals mesh
                  (setLength fillInt (ls_UL s) (ls_unlockedFaceList s))
                  (setLength fillInt (ls_UL s) (ls_unlockedVertList s)))) in
  check status (
  let* status :=
    (if decide (ls_L s = O) then ret status
     else call (FnLockFaceVertexNormals mesh
                  (setLength fillInt (ls_L s) (ls_lockedFaceList s))
                  (setLength fillInt (ls_L s) (ls_lockedVertList s)))) in
  check status (
  ret kSuccess))).

(** *** getEdgeSmoothing *)

(** [std::unordered_map::emplace]: an existing entry is kept. *)
Definition emplace (k : Z) (v : bool) (m : gmap Z bool) : gmap Z bool :=
  match m !! k with
  | Some _ => m
  | None => <[k := v]> m
  end.

Definition getEdgeSmoothing_body (pointOrder : list Z) (i : nat) (e : Edge)
  (edgeSmoothing : gmap Z bool) : option (gmap Z bool) :=
  v0 ← array_get pointOrder (edge_index0 e);
  v1 ← array_get pointOrder (edge_index1 e);
  let edgeKey := twoIntKey v0 v1 in
  Some (emplace edgeKey (edge_isSmooth e) edgeSmoothing).

Definition getEdgeSmoothing (st : Store) (mesh : MObject)
  (pointOrder : list Z) (edgeSmoothing : gmap Z bool)
  : option (MStatus * gmap Z bool) :=
  edgeSmoothing ← for_each 0 (mesh_edges (view st mesh))
                    (getEdgeSmoothing_body pointOrder) edgeSmoothing;
  Some (kSuccess, edgeSmoothing).

(** *** setEdgeSmoothing *)

(** [std::unordered_map::operator[]]: a missing key is inserted with the
    value-initialised [bool], which is [false]. *)
Definition subscript (m : gmap Z bool) (k : Z) : bool * gmap Z bool :=
  match m !! k with
  | Some b => (b, m)
  | None => (false, <[k := false]> m)
  end.

Fixpoint setEdgeSmoothing_loop (mesh : MObject) (i : nat) (edges : list Edge)
  (edgeSmoothing : gmap Z bool) : M (gmap Z bool) :=
  match edges with
  | [] => ret edgeSmoothing
  | e :: rest =>
      let v0 := edge_index0 e in
      let v1 := edge_index1 e in
      let edgeKey := twoIntKey v0 v1 in
      let '(smooth, edgeSmoothing) := subscript edgeSmoothing edgeKey in
      (* the status of [setSmoothing] is dropped *)
      let* _ := call (ItSetSmoothing mesh i smooth) in
      setEdgeSmoothing_loop mesh (S i) rest edgeSmoothing
  end.

(** The map is passed by reference and [operator[]] may grow it, so it is
    returned with the status. *)
Definition setEdgeSmoothing (mesh : MObject) (edgeSmoothing : gmap Z bool)
  : M (MStatus * gmap Z bool) :=
  let* st := getStore in
  let* edgeSmoothing :=
    setEdgeSmoothing_loop mesh 0 (mesh_edges (view st mesh)) edgeSmoothing in
  ret (kSuccess, edgeSmoothing).

(** *** getUVs *)

Definition getUVs_names (uvSetNames : list string) (i : nat)
  (uvSets : list UVSetData) : option (list UVSetData) :=
  uvData ← uvSets !! i;
  n ← uvSetNames !! i;
  Some (<[i := mkUVSetData n (uArray uvData) (vArray uvData)
                 (uvCounts uvData) (uvIds uvData)]> uvSets).

Fixpoint getUVs_loop (m : MeshData) (uvSets : list UVSetData)
  : MStatus * list UVSetData :=
  match uvSets with
  | [] => (kSuccess, [])
  | uvData :: rest =>
      let '(status, (u, v)) := mesh_getUVs m (name uvData) in
      let uvData := mkUVSetData (name uvData) u v (uvCounts uvData)
                      (uvIds uvData) in
      if status_error status then (status, uvData :: rest) else
      let '(status, (c, ids)) := mesh_getAssignedUVs m (name uvData) in
      let uvData := mkUVSetData (name uvData) (uArray uvData)
                      (vArray uvData) c ids in
      if status_error status then (status, uvData :: rest) else
      let '(status, rest) := getUVs_loop m rest in
      (status, uvData :: rest)
  end.

Definition getUVs (st : Store) (mesh : MObject) (uvSets : list UVSetData)
  : option (MStatus * list UVSetData) :=
  let m := view st mesh in
  let numUVSets := mesh_numUVSets m in
  let uvSets := resize numUVSets emptyUVSetData uvSets in
  let uvSetNames := mesh_getUVSetNames m in
  uvSets ← for_range 0 numUVSets (getUVs_names uvSetNames) uvSets;
  Some (getUVs_loop m uvSets).

(** *** setUVs *)

(** The loop of [setUVs].  The entries of [uvSets] are visited by
    reference, and [createUVSet] may rename the entry; the later calls of
    the iteration use the entry's name as [createUVSet] left it. *)
Fixpoint setUVs_loop (mesh : MObject) (uvSets : list UVSetData) : M MStatus :=
  match uvSets with
  | [] => ret kSuccess
  | uvData :: rest =>
      let* uvName :=
        (if decide (name uvData <> "map1") then
           let* st := getStore in
           (* CHECK_MSTATUS: an error is reported, nothing else *)
           let* _ := call (FnCreateUVSet mesh (name uvData)) in
           ret (createdName st mesh (name uvData))
         else ret (name uvData)) in
      let* status := call (FnClearUVs mesh uvName) in
      check status (
      let* status := call (FnSetUVs mesh (uArray uvData) (vArray uvData)
                             uvName) in
      check status (
      let* status := call (FnAssignUVs mesh (uvCounts uvData) (uvIds uvData)
                             uvName) in
      check status (
      setUVs_loop mesh rest)))
  end.

Definition setUVs (mesh : MObject) (uvSets : list UVSetData) : M MStatus :=
  setUVs_loop mesh uvSets.

(** *** reorderMesh *)

Definition reorderMesh_cast (points : list Point) (i : nat)
  (floatPoints : list FloatPoint) : option (list FloatPoint) :=
  p ← points !! i;
  array_put floatPoints i (setCast p).

(** Lines 344-377: build the output mesh.  In the in-place branch the
    status of [createInPlace] is not stored; the check that follows reads
    [status], still as it was constructed. *)
Definition reorderMesh_build (outMesh : MObject) (isMeshData : bool)
  (numVertices numPolys : nat) (points : list Point)
  (polyCounts polyConnects : list Z) : M MStatus :=
  if isMeshData then
    call (FnCreate numVertices numPolys points polyCounts polyConnects
            outMesh)
  else
    let* floatPoints :=
      lift (for_range 0 numVertices (reorderMesh_cast points)
              (replicate numVertices floatOrigin)) in
    let* _ := call (FnCreateInPlace outMesh numVertices numPolys floatPoints
                      polyCounts polyConnects) in
    ret kSuccess.

(** Lines 379-391: apply the attributes. *)
Definition reorderMesh_apply (outMesh : MObject) (uvSets : list UVSetData)
  (polyCounts polyConnects : list Z) (vertexNormals : list Vector)
  (lockedList : list Z) (edgeSmoothing : gmap Z bool) : M MStatus :=
  let* status := setUVs outMesh uvSets in
  check status (
  let* status := setFaceVertexNormals outMesh polyCounts polyConnects
                   vertexNormals in
  check status (
  let* status := setFaceVertexLocks outMesh lockedList in
  check status (
  let* (status, _) := setEdgeSmoothing outMesh edgeSmoothing in
  check status (
  ret kSuccess)))).

(** Lines 340-391: what follows the extraction of the normals.  The
    statuses of the extraction steps are dropped by the source. *)
Definition reorderMesh_rest (targetMesh : MObject) (pointOrder : list Z)
  (outMesh : MObject) (isMeshData : bool) (numVertices numPolys : nat)
  (points : list Point) (polyCounts polyConnects : list Z)
  (vertexNormals : list Vector) : M MStatus :=
  let* st := getStore in
  let* (_, lockedList) := lift (getFaceVertexLocks st targetMesh []) in
  let* (_, edgeSmoothing) :=
    lift (getEdgeSmoothing st targetMesh pointOrder ∅) in
  let* (_, uvSets) := lift (getUVs st targetMesh []) in
  let* status := reorderMesh_build outMesh isMeshData numVertices numPolys
                   points polyCounts polyConnects in
  check status (
  reorderMesh_apply outMesh uvSets polyCounts polyConnects vertexNormals
    lockedList edgeSmoothing).

Definition reorderMesh (sourceMesh targetMesh : MObject)
  (pointOrder : list Z) (outMesh : MObject) (isMeshData : bool)
  : M MStatus :=
  let* st := getStore in
  let numVertices := mesh_numVertices (view st sourceMesh) in
  let numPolys := mesh_numPolygons (view st sourceMesh) in
  let* (_, points) := lift (getPoints st targetMesh pointOrder []) in
  let* (_, (polyCounts, polyConnects)) :=
    lift (getPolys st sourceMesh pointOrder isMeshData) in
  let vertexNormals := setLength fillVector (length polyConnects) [] in
  let* (_, vertexNormals) :=
    lift (getFaceVertexNormals st targetMesh vertexNormals) in
  reorderMesh_rest targetMesh pointOrder outMesh isMeshData numVertices
    numPolys points polyCounts polyConnects vertexNormals.

(** ** Loop invariants *)

(** State of the connectivity array after [j] iterations of the remap
    loop: the first [j] cells are remapped, the others untouched. *)
Definition getPolys_inv (pointOrder connects : list Z) (j : nat)
  (pc : list Z) : Prop :=
  length pc = length connects /\
  forall i : nat,
    ((i < j)%nat -> forall v, connects !! i = Some v ->
                              pc !! i = array_get pointOrder v) /\
    ((j <= i)%nat -> pc !! i = connects !! i).

(** State of [getFaceVertexList] inside face [i], after [j] of its
    corners, entered at corner index [idx0] with [pre] already written
    to [faceList]. *)
Definition fvl_inner_inv (connects : list Z) (i idx0 : nat) (pre : list Z)
  (j : nat) (s : fvl_state) : Prop :=
  s.1 = (idx0 + j)%nat /\
  length s.2.1 = length connects /\ length s.2.2 = length connects /\
  take s.1 s.2.1 = pre ++ replicate j (Z.of_nat i) /\
  take s.1 s.2.2 = take s.1 connects.

(** State of [getFaceVertexList] after [i] faces. *)
Definition fvl_outer_inv (counts connects : list Z) (i : nat)
  (s : fvl_state) : Prop :=
  s.1 = length (cornerFaces 0 (take i counts)) /\
  length s.2.1 = length connects /\ length s.2.2 = length connects /\
  take s.1 s.2.1 = cornerFaces 0 (take i counts) /\
  take s.1 s.2.2 = take s.1 connects.

(** State of the partition loop of [setFaceVertexLocks] after [i]
    corners. *)
Definition locks_inv (lockedList faceList vertexList : list Z) (n i : nat)
  (s : lock_state) : Prop :=
  ls_L s = length (lockedCorners lockedList i) /\
  ls_UL s = length (unlockedCorners lockedList i) /\
  (length (ls_lockedFaceList s) = n /\ length (ls_lockedVertList s) = n /\
   length (ls_unlockedFaceList s) = n /\
   length (ls_unlockedVertList s) = n) /\
  take (ls_L s) (ls_lockedFaceList s)
    = cornersAt (lockedCorners lockedList i) faceList /\
  take (ls_L s) (ls_lockedVertList s)
    = cornersAt (lockedCorners lockedList i) vertexList /\
  take (ls_UL s) (ls_unlockedFaceList s)
    = cornersAt (unlockedCorners lockedList i) faceList /\
  take (ls_UL s) (ls_unlockedVertList s)
    = cornersAt (unlockedCorners lockedList i) vertexList.

(** State of the remap loop of [getPoints] after [j] points: the entries
    of [pointOrder] read so far were indices of the output array, and a
    cell holds the last point sent to it. *)
Definition getPoints_inv (inPoints : list Point) (pointOrder : list Z)
  (n j : nat) (out : list Point) : Prop :=
  length out = n /\
  (forall (i : nat) (k : Z),
      (i < j)%nat -> pointOrder !! i = Some k -> 0 <= k < Z.of_nat n) /\
  (forall (i : nat) (k : Z),
      (i < j)%nat -> pointOrder !! i = Some k ->
      (forall (i' : nat) (k' : Z),
          (i < i' < j)%nat -> pointOrder !! i' = Some k' -> k' <> k) ->
      out !! Z.to_nat k = inPoints !! i).

(** ** Expected call sequences *)

(** The calls [setEdgeSmoothing] is expected to issue for [edges], the
    first of them being edge number [i]: each edge receives the flag
    stored under its key, or [false] (hard) when there is none. *)
Fixpoint expectedSmoothing (mesh : MObject) (i : nat) (edges : list Edge)
  (edgeSmoothing : gmap Z bool) : list Call :=
  match edges with
  | [] => []
  | e :: rest =>
      ItSetSmoothing mesh i
        (default false
           (edgeSmoothing !! twoIntKey (edge_index0 e) (edge_index1 e)))
      :: expectedSmoothing mesh (S i) rest edgeSmoothing
  end.

(** The order of calls the spec prescribes for applying UV sets, as a
    relation between the sets, the logged calls with their statuses, and
    the status returned.  Sets are taken in list order.  A set not named
    "map1" is created first, whatever the status of the creation; the
    calls that follow use the name [createUVSet] left in its argument.
    Then the set is cleared, its coordinates are written and its
    assignments are written; the first of these three that fails ends the
    run with its status. *)
Inductive setUVs_protocol (mesh : MObject)
  : list UVSetData -> list Event -> MStatus -> Prop :=
| uvs_done : setUVs_protocol mesh [] [] kSuccess
| uvs_default (uv : UVSetData) (rest : list UVSetData) (evs : list Event)
    (status : MStatus) :
    name uv = "map1"%string ->
    uvSet_protocol mesh uv (name uv) rest evs status ->
    setUVs_protocol mesh (uv :: rest) evs status
| uvs_named (uv : UVSetData) (rest : list UVSetData) (st : Store)
    (s : MStatus) (evs : list Event) (status : MStatus) :
    name uv <> "map1"%string ->
    uvSet_protocol mesh uv (createdName st mesh (name uv)) rest evs status ->
    setUVs_protocol mesh (uv :: rest)
      ((FnCreateUVSet mesh (name uv), s) :: evs) status
with uvSet_protocol (mesh : MObject)
  : UVSetData -> string -> list UVSetData -> list Event -> MStatus -> Prop :=
| uv_clear_failed (uv : UVSetData) (n : string) (rest : list UVSetData)
    (s : MStatus) :
    status_error s = true ->
    uvSet_protocol mesh uv n rest [(FnClearUVs mesh n, s)] s
| uv_coords_failed (uv : UVSetData) (n : string) (rest : list UVSetData)
    (s1 s : MStatus) :
    status_error s1 = false -> status_error s = true ->
    uvSet_protocol mesh uv n rest
      [(FnClearUVs mesh n, s1); (FnSetUVs mesh (uArray uv) (vArray uv) n, s)] s
| uv_assign_failed (uv : UVSetData) (n : string) (rest : list UVSetData)
    (s1 s2 s : MStatus) :
    status_error s1 = false -> status_error s2 = false ->
    status_error s = true ->
    uvSet_protocol mesh uv n rest
      [(FnClearUVs mesh n, s1); (FnSetUVs mesh (uArray uv) (vArray uv) n, s2);
       (FnAssignUVs mesh (uvCounts uv) (uvIds uv) n, s)] s
| uv_applied (uv : UVSetData) (n : string) (rest : list UVSetData)
    (s1 s2 s3 : MStatus) (evs : list Event) (status : MStatus) :
    status_error s1 = false -> status_error s2 = false ->
    status_error s3 = false ->
    setUVs_protocol mesh rest evs status ->
    uvSet_protocol mesh uv n rest
      ((FnClearUVs mesh n, s1) :: (FnSetUVs mesh (uArray uv) (vArray uv) n, s2)
       :: (FnAssignUVs mesh (uvCounts uv) (uvIds uv) n, s3) :: evs) status.

(** ** Error propagation *)

(** The store calls whose status the source checks with
    CHECK_MSTATUS_AND_RETURN_IT.  The status of [createUVSet] is only
    reported, that of [setSmoothing] is dropped and that of
    [createInPlace] is not stored. *)
Definition checked (c : Call) : bool :=
  match c with
  | FnCreate _ _ _ _ _ _ => true
  | FnCreateInPlace _ _ _ _ _ _ => false
  | FnSetFaceVertexNormals _ _ _ _ => true
  | FnUnlockFaceVertexNormals _ _ _ => true
  | FnLockFaceVertexNormals _ _ _ => true
  | ItSetSmoothing _ _ _ => false
  | FnCreateUVSet _ _ => false
  | FnClearUVs _ _ => true
  | FnSetUVs _ _ _ _ => true
  | FnAssignUVs _ _ _ _ => true
  end.

(** A checked call that the store answered with an error. *)
Definition failed (e : Event) : bool := checked e.1 && status_error e.2.

(** Reading the calls in order, the first failed checked call is the
    last call, and its status is the one returned. *)
Fixpoint stops_at_failure (evs : list Event) (status : MStatus) : Prop :=
  match evs with
  | [] => True
  | e :: rest =>
      if failed e then rest = [] /\ status = e.2
      else stops_at_failure rest status
  end.

(** A computation propagates the first failure when every run of it
    stops at the first failed checked call. *)
Definition propagates (m : M MStatus) : Prop :=
  forall (w : World) (status : MStatus) (w' : World),
    m w = Some (status, w') ->
    exists evs, log w' = log w ++ evs /\ stops_at_failure evs status.

(** A computation none of whose calls is a failed checked call. *)
Definition quiet {A} (m : M A) : Prop :=
  forall (w : World) (a : A) (w' : World),
    m w = Some (a, w') ->
    exists evs, log w' = log w ++ evs /\
                Forall (fun e => failed e = false) evs.

(** ** Vocabulary of the further properties *)

(** The key under which [setEdgeSmoothing] looks an edge up. *)
Definition edgeKey (e : Edge) : Z :=
  twoIntKey (edge_index0 e) (edge_index1 e).

(** The key under which [getEdgeSmoothing] stores an edge: that of its
    endpoints sent through [pointOrder]. *)
Definition remappedKey (pointOrder : list Z) (e : Edge) : option Z :=
  v0 ← array_get pointOrder (edge_index0 e);
  v1 ← array_get pointOrder (edge_index1 e);
  Some (twoIntKey v0 v1).

(** The flag of the first edge stored under key [k]. *)
Fixpoint firstSmooth (pointOrder : list Z) (edges : list Edge) (k : Z)
  : option bool :=
  match edges with
  | [] => None
  | e :: rest =>
      if decide (remappedKey pointOrder e = Some k)
      then Some (edge_isSmooth e)
      else firstSmooth pointOrder rest k
  end.

(** Both endpoints of an edge are indices of [pointOrder]. *)
Definition edge_in_range (pointOrder : list Z) (e : Edge) : Prop :=
  (0 <= edge_index0 e < Z.of_nat (length pointOrder)) /\
  (0 <= edge_index1 e < Z.of_nat (length pointOrder)).

(** The mesh a mutating call is issued against ([create] is handed the
    output object as the parent or owner of the new mesh). *)
Definition callTarget (c : Call) : MObject :=
  match c with
  | FnCreate _ _ _ _ _ parentOrOwner => parentOrOwner
  | FnCreateInPlace mesh _ _ _ _ _ => mesh
  | FnSetFaceVertexNormals mesh _ _ _ => mesh
  | FnUnlockFaceVertexNormals mesh _ _ => mesh
  | FnLockFaceVertexNormals mesh _ _ => mesh
  | ItSetSmoothing mesh _ _ => mesh
  | FnCreateUVSet mesh _ => mesh
  | FnClearUVs mesh _ => mesh
  | FnSetUVs mesh _ _ _ => mesh
  | FnAssignUVs mesh _ _ _ => mesh
  end.

(** Every call a computation issues satisfies [P]. *)
Definition issues_only {A} (P : Call -> Prop) (m : M A) : Prop :=
  forall (w : World) (a : A) (w' : World),
    m w = Some (a, w') ->
    exists evs, log w' = log w ++ evs /\ Forall (fun e => P e.1) evs.

(** The normals of an assignment call are [normals], its corners are
    those of the topology [(counts, connects)]. *)
Definition assigns_normals (normals : list Vector) (counts connects : list Z)
  (c : Call) : Prop :=
  match c with
  | FnSetFaceVertexNormals _ n faceList vertexList =>
      n = normals /\ faceList = cornerFaces 0 counts /\ vertexList = connects
  | _ => True
  end.




(** ** Proofs *)

(** *** Loops *)

(** Total correctness of a counted loop from an invariant. *)
Lemma for_range_invariant {T} (P : nat -> T -> Prop)
  (body : nat -> T -> option T) (n : nat) :
  forall (i : nat) (s : T),
    P i s ->
    (forall j t, (i <= j < i + n)%nat -> P j t ->
                 exists t', body j t = Some t' /\ P (S j) t') ->
    exists s', for_range i n body s = Some s' /\ P (i + n)%nat s'.
Proof.
  induction n as [|n IH]; intros i s Hs Hstep; simpl.
  - exists s. by rewrite Nat.add_0_r.
  - destruct (Hstep i s) as (t & -> & Ht); [lia | done |].
    destruct (IH (S i) t Ht) as (s' & Hrun & Hs').
    + intros j u Hj Hu. apply Hstep; [lia | done].
    + exists s'. split; [done |].
      by replace (i + S n)%nat with (S i + n)%nat by lia.
Qed.

(** What a run that did not leave the arrays tells about its steps. *)
Lemma for_range_run {T} (P : nat -> T -> Prop)
  (body : nat -> T -> option T) (n : nat) :
  forall (i : nat) (s s' : T),
    for_range i n body s = Some s' ->
    P i s ->
    (forall j t t', (i <= j < i + n)%nat -> P j t -> body j t = Some t' ->
                    P (S j) t') ->
    P (i + n)%nat s'.
Proof.
  induction n as [|n IH]; intros i s s' Hrun Hs Hstep; simpl in Hrun.
  - rewrite Nat.add_0_r. congruence.
  - destruct (body i s) as [t|] eqn:Hb; [|done].
    replace (i + S n)%nat with (S i + n)%nat by lia.
    apply (IH (S i) t s' Hrun).
    + apply (Hstep i s t); [lia | done | done].
    + intros j u u' Hj Hu Hbu. apply (Hstep j u u'); [lia | done | done].
Qed.

(** *** Arrays *)

Lemma array_set_Some {A} (l l' : list A) (k : Z) (x : A) :
  array_set l k x = Some l' <->
  0 <= k < Z.of_nat (length l) /\ l' = <[Z.to_nat k := x]> l.
Proof.
  unfold array_set. case_decide; split; intros H1; try done.
  - by simplify_eq.
  - destruct H1 as [_ ->]. done.
  - by destruct H1.
Qed.

Lemma array_put_Some {A} (l l' : list A) (i : nat) (x : A) :
  array_put l i x = Some l' <-> (i < length l)%nat /\ l' = <[i := x]> l.
Proof.
  unfold array_put. case_decide; split; intros H1; try done.
  - by simplify_eq.
  - destruct H1 as [_ ->]. done.
  - by destruct H1.
Qed.

Lemma array_get_Some {A} (l : list A) (k : Z) (x : A) :
  array_get l k = Some x <-> 0 <= k /\ l !! Z.to_nat k = Some x.
Proof.
  unfold array_get. case_decide.
  - split; [by intros; split | by intros [_ ?]].
  - split; [done | by intros [? _]].
Qed.

Lemma setLength_length {A} (filler : A) (n : nat) (l : list A) :
  length (setLength filler n l) = n.
Proof. apply length_resize. Qed.

(** *** getPoints *)

Lemma bijection_on_lookup (n : nat) (pointOrder : list Z) (i : nat) (k : Z) :
  bijection_on n pointOrder -> pointOrder !! i = Some k ->
  (i < n)%nat /\ 0 <= k < Z.of_nat n.
Proof.
  intros (Hlen & _ & Hrange) Hi. split.
  - rewrite <- Hlen. by eapply lookup_lt_Some.
  - rewrite Forall_forall in Hrange. apply Hrange.
    by eapply list_elem_of_lookup_2.
Qed.

Lemma bijection_on_inj (n : nat) (pointOrder : list Z) (i j : nat) (k : Z) :
  bijection_on n pointOrder ->
  pointOrder !! i = Some k -> pointOrder !! j = Some k -> i = j.
Proof. intros (_ & Hnd & _). by eapply NoDup_lookup. Qed.

(** The loop of [getPoints] on a bijection: it stays inside the arrays
    and leaves every point at its new index. *)
Lemma getPoints_loop_bijection (inPoints : list Point) (pointOrder : list Z)
  (outPoints : list Point) :
  let n := length inPoints in
  bijection_on n pointOrder ->
  length outPoints = n ->
  exists newPoints,
    for_range 0 n (getPoints_body inPoints pointOrder) outPoints
      = Some newPoints /\
    length newPoints = n /\
    forall (i : nat) (k : Z),
      pointOrder !! i = Some k ->
      newPoints !! Z.to_nat k = inPoints !! i.
Proof.
  intros n Hbij Hout.
  destruct (for_range_invariant
    (fun j out => length out = n /\
       forall (i : nat) (k : Z), (i < j)%nat -> pointOrder !! i = Some k ->
         out !! Z.to_nat k = inPoints !! i)
    (getPoints_body inPoints pointOrder) n 0%nat outPoints)
    as (newPoints & Hrun & Hlen & Hall).
  - split; [done | intros; lia].
  - intros j out Hj [Hlen Hprev].
    destruct (lookup_lt_is_Some_2 inPoints j) as [p Hp]; [lia |].
    destruct (lookup_lt_is_Some_2 pointOrder j) as [k Hk].
    { destruct Hbij as [-> _]. lia. }
    destruct (bijection_on_lookup _ _ _ _ Hbij Hk) as [_ Hkr].
    exists (<[Z.to_nat k := p]> out). split.
    + unfold getPoints_body. rewrite Hp, Hk. simpl.
      apply array_set_Some. split; [lia | done].
    + split; [by rewrite length_insert |].
      intros i k' Hi Hk'.
      destruct (decide (i = j)) as [-> | Hne].
      * simplify_eq. rewrite Hp. apply list_lookup_insert_eq. lia.
      * rewrite list_lookup_insert_ne.
        -- apply Hprev; [lia | done].
        -- intros Heq.
           destruct (bijection_on_lookup _ _ _ _ Hbij Hk') as [_ Hk'r].
           assert (k = k') by lia. subst k'.
           apply Hne. by eapply bijection_on_inj.
  - exists newPoints. split; [done |]. split; [done |].
    intros i k Hk. apply Hall; [|done].
    by destruct (bijection_on_lookup _ _ _ _ Hbij Hk).
Qed.

(** C1.  Point remap contract: when [pointOrder] is a bijection over the
    indices of the mesh's point array [targetPoints], [getPoints] succeeds
    with an array of the same length in which, for every index [i], the
    cell [pointOrder[i]] holds [targetPoints[i]]. *)
Theorem getPoints_remap (st : Store) (mesh : MObject) (pointOrder : list Z)
  (outPoints : list Point) :
  let targetPoints := mesh_getPoints (view st mesh) in
  mesh_numVertices (view st mesh) = length targetPoints ->
  bijection_on (length targetPoints) pointOrder ->
  exists newPoints,
    getPoints st mesh pointOrder outPoints = Some (kSuccess, newPoints) /\
    length newPoints = length targetPoints /\
    forall (i : nat) (k : Z),
      pointOrder !! i = Some k ->
      newPoints !! Z.to_nat k = targetPoints !! i.
Proof.
  intros targetPoints Hn Hbij. unfold getPoints. rewrite Hn.
  destruct (getPoints_loop_bijection targetPoints pointOrder
              (setLength fillPoint (length targetPoints) outPoints) Hbij)
    as (newPoints & Hrun & Hlen & Hall).
  { apply setLength_length. }
  exists newPoints. fold targetPoints. rewrite Hrun. done.
Qed.

(** *** getPolys *)

Lemma getPolys_body_Some (pointOrder : list Z) (j : nat) (pc pc' : list Z) :
  getPolys_body pointOrder j pc = Some pc' <->
  exists v w, pc !! j = Some v /\ array_get pointOrder v = Some w /\
              pc' = <[j := w]> pc.
Proof.
  unfold getPolys_body. split.
  - intros H. destruct (pc !! j) as [v|] eqn:Hv; [|done]. simpl in H.
    destruct (array_get pointOrder v) as [w|] eqn:Hw; [|done]. simpl in H.
    apply array_put_Some in H as [_ ->]. by exists v, w.
  - intros (v & w & Hv & Hw & ->). rewrite Hv. simpl. rewrite Hw. simpl.
    apply array_put_Some. split; [by eapply lookup_lt_Some | done].
Qed.

Lemma getPolys_inv_step (pointOrder connects : list Z) (j : nat)
  (pc pc' : list Z) :
  getPolys_inv pointOrder connects j pc ->
  getPolys_body pointOrder j pc = Some pc' ->
  getPolys_inv pointOrder connects (S j) pc'.
Proof.
  intros [Hlen Hinv] (v & w & Hv & Hw & ->)%getPolys_body_Some.
  split; [by rewrite length_insert |].
  intros i. split.
  - intros Hi u Hu. destruct (decide (i = j)) as [-> | Hne].
    + rewrite list_lookup_insert_eq by (by eapply lookup_lt_Some).
      destruct (Hinv j) as [_ Hj]. rewrite Hj in Hv by lia. congruence.
    + rewrite list_lookup_insert_ne by done.
      destruct (Hinv i) as [Hi' _]. apply Hi'; [lia | done].
  - intros Hi. rewrite list_lookup_insert_ne by lia.
    destruct (Hinv i) as [_ Hi']. apply Hi'. lia.
Qed.

Lemma getPolys_inv_end (pointOrder connects pc : list Z) :
  getPolys_inv pointOrder connects (length connects) pc ->
  Forall2 (fun v w => array_get pointOrder v = Some w) connects pc.
Proof.
  intros [Hlen Hinv]. apply Forall2_same_length_lookup. split; [done |].
  intros i v w Hv Hw. destruct (Hinv i) as [Hi _].
  rewrite <- Hw. symmetry. apply Hi; [by eapply lookup_lt_Some | done].
Qed.

(** C2.  Topology remap contract.  With [counts] and [connects] the
    arrays of the mesh: whenever [getPolys] returns, it returns success,
    the face counts unchanged and, when the flag is set, a connectivity
    array whose every entry [v] has become [pointOrder[v]], otherwise the
    connectivity unchanged; and it does return when the flag is clear or
    every connectivity entry is an index of [pointOrder]. *)
Theorem getPolys_remap (st : Store) (mesh : MObject) (pointOrder : list Z)
  (reorderPoints : bool) (status : MStatus) (counts connects : list Z) :
  mesh_getVertices (view st mesh) = (status, (counts, connects)) ->
  (forall s cs ks,
      getPolys st mesh pointOrder reorderPoints = Some (s, (cs, ks)) ->
      s = kSuccess /\ cs = counts /\
      if reorderPoints
      then Forall2 (fun v w => array_get pointOrder v = Some w) connects ks
      else ks = connects) /\
  ((reorderPoints = true ->
    Forall (fun v => 0 <= v < Z.of_nat (length pointOrder)) connects) ->
   is_Some (getPolys st mesh pointOrder reorderPoints)).
Proof.
  intros Hmesh. unfold getPolys. rewrite Hmesh. split.
  - intros s cs ks Hrun. destruct reorderPoints.
    + destruct (for_range 0 (length connects) (getPolys_body pointOrder)
                  connects) as [pc|] eqn:Hloop; [|done].
      simpl in Hrun. simplify_eq. split; [done |]. split; [done |].
      apply getPolys_inv_end.
      apply (for_range_run (getPolys_inv pointOrder connects) _ _ _ _ _
               Hloop).
      * split; [done |]. intros i. split; [lia | done].
      * intros j t t' _. apply getPolys_inv_step.
    + simpl in Hrun. by simplify_eq.
  - intros Hrange. destruct reorderPoints; [|simpl; by eexists].
    specialize (Hrange eq_refl). rewrite Forall_forall in Hrange.
    destruct (for_range_invariant (getPolys_inv pointOrder connects)
                (getPolys_body pointOrder) (length connects) 0%nat connects)
      as (pc & Hpc & _); [| |rewrite Hpc; simpl; by eexists].
    + split; [done |]. intros i. split; [lia | done].
    + intros j t Hj Ht.
      destruct (lookup_lt_is_Some_2 t j) as [v Hv].
      { destruct Ht as [-> _]. lia. }
      assert (Hvc : connects !! j = Some v).
      { destruct Ht as [_ Ht]. destruct (Ht j) as [_ Hj'].
        rewrite <- Hj' by lia. done. }
      destruct (Hrange v) as [Hv0 Hv1]; [by eapply list_elem_of_lookup_2 |].
      destruct (lookup_lt_is_Some_2 pointOrder (Z.to_nat v)) as [w Hw];
        [lia |].
      assert (Hbody : getPolys_body pointOrder j t = Some (<[j := w]> t)).
      { apply getPolys_body_Some. exists v, w.
        split; [done |]. split; [|done].
        apply array_get_Some. done. }
      exists (<[j := w]> t). split; [done |].
      by eapply getPolys_inv_step.
Qed.

(** *** getFaceVertexList *)

Lemma cornerFaces_app (f : nat) (l1 l2 : list Z) :
  cornerFaces f (l1 ++ l2)
  = cornerFaces f l1 ++ cornerFaces (f + length l1) l2.
Proof.
  revert f. induction l1 as [|c l1 IH]; intros f; simpl.
  - by rewrite Nat.add_0_r.
  - rewrite IH, <- app_assoc. do 3 f_equal. lia.
Qed.

Lemma cornerFaces_length (f : nat) (counts : list Z) :
  Forall (fun c => 0 <= c) counts ->
  Z.of_nat (length (cornerFaces f counts)) = sumCounts counts.
Proof.
  intros Hpos. revert f. induction Hpos as [|c counts Hc _ IH]; intros f.
  - done.
  - simpl. rewrite length_app, length_replicate, Nat2Z.inj_add, IH. lia.
Qed.

Lemma cornerFaces_take_S (counts : list Z) (i : nat) (c : Z) :
  counts !! i = Some c ->
  cornerFaces 0 (take (S i) counts)
  = cornerFaces 0 (take i counts) ++ replicate (Z.to_nat c) (Z.of_nat i).
Proof.
  intros Hc. rewrite (take_S_r _ _ _ Hc), cornerFaces_app. simpl.
  rewrite app_nil_r, length_take_le; [done |].
  apply lookup_lt_Some in Hc. lia.
Qed.

Lemma cornerFaces_take_le (counts : list Z) (i : nat) :
  (length (cornerFaces 0 (take i counts))
   <= length (cornerFaces 0 counts))%nat.
Proof.
  rewrite <- (take_drop i counts) at 2.
  rewrite cornerFaces_app, length_app. lia.
Qed.

Lemma getFaceVertexList_inner_run (connects : list Z) (i c idx0 : nat)
  (fl vl : list Z) :
  (idx0 + c <= length connects)%nat ->
  length fl = length connects -> length vl = length connects ->
  take idx0 vl = take idx0 connects ->
  exists s,
    for_range 0 c (getFaceVertexList_inner connects i) (idx0, (fl, vl))
      = Some s /\
    fvl_inner_inv connects i idx0 (take idx0 fl) c s.
Proof.
  intros Hfit Hfl Hvl Hpre.
  apply (for_range_invariant (fvl_inner_inv connects i idx0 (take idx0 fl))).
  - unfold fvl_inner_inv. simpl. rewrite Nat.add_0_r, app_nil_r. done.
  - intros j [idx [fl' vl']] Hj (Hidx & Hfl' & Hvl' & Hf & Hv).
    simpl in *. subst idx.
    destruct (lookup_lt_is_Some_2 connects (idx0 + j)) as [v Hcv]; [lia |].
    eexists. split.
    + unfold getFaceVertexList_inner, array_put.
      rewrite decide_True by lia. rewrite Hcv.
      rewrite decide_True by lia. done.
    + unfold fvl_inner_inv. simpl.
      rewrite !length_insert.
      split; [lia |]. split; [done |]. split; [done |].
      replace (idx0 + S j)%nat with (S (idx0 + j)) by lia. split.
      * rewrite (take_S_r _ _ (Z.of_nat i)).
        -- rewrite take_insert_ge by lia. rewrite Hf, <- app_assoc.
           f_equal. exact (eq_sym (replicate_S_end j (Z.of_nat i))).
        -- apply list_lookup_insert_eq. lia.
      * rewrite (take_S_r _ _ v).
        -- rewrite take_insert_ge by lia. rewrite Hv.
           symmetry. by apply take_S_r.
        -- apply list_lookup_insert_eq. lia.
Qed.

(** On a well-formed topology the enumeration is the list of owning
    faces next to the connectivity array itself. *)
Lemma getFaceVertexList_run (filler : Z)
  (polyCounts polyConnects faceList0 vertexList0 : list Z) :
  Forall (fun c => 0 <= c) polyCounts ->
  Z.of_nat (length polyConnects) = sumCounts polyCounts ->
  getFaceVertexList filler polyCounts polyConnects faceList0 vertexList0
    = Some (cornerFaces 0 polyCounts, polyConnects) /\
  length (cornerFaces 0 polyCounts) = length polyConnects.
Proof.
  intros Hpos Hsum. unfold getFaceVertexList.
  assert (Hlen : length (cornerFaces 0 polyCounts) = length polyConnects).
  { apply Nat2Z.inj. rewrite Hsum. by apply cornerFaces_length. }
  destruct (for_range_invariant (fvl_outer_inv polyCounts polyConnects)
              (getFaceVertexList_outer polyCounts polyConnects)
              (length polyCounts) 0%nat
              (0%nat, (setLength filler (length polyConnects) faceList0,
                       setLength filler (length polyConnects) vertexList0)))
    as ([idx [fl vl]] & Hrun & Hidx & Hfl & Hvl & Hf & Hv).
  - unfold fvl_outer_inv. simpl. by rewrite !setLength_length.
  - intros i [idx [fl vl]] Hi (Hidx & Hfl & Hvl & Hf & Hv). simpl in *.
    destruct (lookup_lt_is_Some_2 polyCounts i) as [c Hc]; [lia |].
    pose proof (cornerFaces_take_S _ _ _ Hc) as Hstep.
    pose proof (cornerFaces_take_le polyCounts (S i)) as Hle.
    rewrite Hstep, length_app, length_replicate, Hlen, <- Hidx in Hle.
    destruct (getFaceVertexList_inner_run polyConnects i (Z.to_nat c) idx
                fl vl Hle Hfl Hvl Hv)
      as ([idx' [fl' vl']] & Hrun & Hidx' & Hfl' & Hvl' & Hf' & Hv').
    simpl in *. exists (idx', (fl', vl')). split.
    + unfold getFaceVertexList_outer. by rewrite Hc.
    + unfold fvl_outer_inv. simpl.
      rewrite Hstep, length_app, length_replicate, <- Hidx.
      split; [done |]. split; [done |]. split; [done |].
      split; [|done]. rewrite Hf', Hf. reflexivity.
  - simpl in *. rewrite Hrun. rewrite take_ge in Hidx by done.
    rewrite (take_ge polyCounts) in Hf by done.
    assert (Hfull : idx = length polyConnects) by congruence.
    rewrite take_ge in Hf by lia.
    rewrite !take_ge in Hv by lia. by subst fl vl.
Qed.

(** C8.  Corner enumeration: for non-negative per-face counts whose sum
    is the length of the connectivity array, [getFaceVertexList] yields
    [faceList] and [vertexList] both of length [sum(counts)], where
    [faceList] names the owning face of every corner (face [f]
    contributes [counts[f]] consecutive entries, faces in order) and
    [vertexList[i]] is [connectivity[i]]. *)
Theorem getFaceVertexList_corners (filler : Z)
  (polyCounts polyConnects faceList0 vertexList0 : list Z) :
  Forall (fun c => 0 <= c) polyCounts ->
  Z.of_nat (length polyConnects) = sumCounts polyCounts ->
  exists faceList vertexList,
    getFaceVertexList filler polyCounts polyConnects faceList0 vertexList0
      = Some (faceList, vertexList) /\
    Z.of_nat (length faceList) = sumCounts polyCounts /\
    Z.of_nat (length vertexList) = sumCounts polyCounts /\
    faceList = cornerFaces 0 polyCounts /\
    (forall i : nat, vertexList !! i = polyConnects !! i).
Proof.
  intros Hpos Hsum.
  destruct (getFaceVertexList_run filler polyCounts polyConnects faceList0
              vertexList0 Hpos Hsum) as [Hrun Hlen].
  exists (cornerFaces 0 polyCounts), polyConnects.
  split; [done |]. rewrite <- Hsum, Hlen. done.
Qed.

(** *** setFaceVertexLocks *)

Lemma filter_seq_S (P : nat -> Prop) `{!forall i, Decision (P i)} (n : nat) :
  filter P (seq 0 (S n))
  = filter P (seq 0 n) ++ (if decide (P n) then [n] else []).
Proof. rewrite seq_S, filter_app. f_equal. Qed.

Lemma filter_seq_length (P : nat -> Prop) `{!forall i, Decision (P i)}
  (n : nat) : (length (filter P (seq 0 n)) <= n)%nat.
Proof.
  etrans; [apply length_filter |]. by rewrite length_seq.
Qed.

Lemma cornersAt_snoc (positions : list nat) (l : list Z) (i : nat) (x : Z) :
  l !! i = Some x ->
  cornersAt (positions ++ [i]) l = cornersAt positions l ++ [x].
Proof. intros Hx. unfold cornersAt. rewrite omap_app. simpl. by rewrite Hx. Qed.

Lemma take_put_snoc {A} (l pre : list A) (k : nat) (x : A) :
  (k < length l)%nat -> take k l = pre ->
  take (S k) (<[k := x]> l) = pre ++ [x].
Proof.
  intros Hk <-. rewrite (take_S_r _ _ x).
  - by rewrite take_insert_ge.
  - by apply list_lookup_insert_eq.
Qed.

Lemma setFaceVertexLocks_loop (lockedList faceList vertexList : list Z)
  (n : nat) :
  length faceList = n -> length vertexList = n ->
  (n <= length lockedList)%nat ->
  exists s,
    for_range 0 n (setFaceVertexLocks_body lockedList faceList vertexList)
      (mkLockState 0 0 (replicate n 0) (replicate n 0) (replicate n 0)
         (replicate n 0)) = Some s /\
    locks_inv lockedList faceList vertexList n n s.
Proof.
  intros Hfl Hvl Hll.
  apply (for_range_invariant (locks_inv lockedList faceList vertexList n)).
  - unfold locks_inv. simpl. rewrite !length_replicate. done.
  - intros i s Hi (HL & HUL & (H1 & H2 & H3 & H4) & Hlf & Hlv & Huf & Huv).
    destruct (lookup_lt_is_Some_2 lockedList i) as [flag Hflag]; [lia |].
    destruct (lookup_lt_is_Some_2 faceList i) as [f Hf]; [lia |].
    destruct (lookup_lt_is_Some_2 vertexList i) as [v Hv]; [lia |].
    pose proof (filter_seq_length (locked_at lockedList) i) as HLi.
    pose proof (filter_seq_length (fun j => ~ locked_at lockedList j) i)
      as HULi.
    fold (lockedCorners lockedList i) in HLi.
    fold (unlockedCorners lockedList i) in HULi.
    unfold setFaceVertexLocks_body, array_put. rewrite Hflag. simpl.
    destruct (decide (flag = 1)) as [-> | Hne].
    + assert (HlS : lockedCorners lockedList (S i)
                    = lockedCorners lockedList i ++ [i]).
      { unfold lockedCorners. rewrite filter_seq_S.
        by rewrite decide_True. }
      assert (HuS : unlockedCorners lockedList (S i)
                    = unlockedCorners lockedList i).
      { unfold unlockedCorners. rewrite filter_seq_S.
        rewrite decide_False; [by rewrite app_nil_r |]. by intros []. }
      rewrite Hf. simpl. rewrite decide_True by lia.
      simpl. rewrite Hv. simpl. rewrite decide_True by lia. simpl.
      eexists. split; [done |].
      unfold locks_inv. simpl. rewrite HlS, HuS, !length_insert.
      rewrite length_app. simpl.
      split; [lia |]. split; [done |]. split; [done |].
      rewrite !(cornersAt_snoc _ _ i _) by done.
      split; [apply take_put_snoc; [lia | done] |].
      split; [apply take_put_snoc; [lia | done] |]. done.
    + assert (HlS : lockedCorners lockedList (S i)
                    = lockedCorners lockedList i).
      { unfold lockedCorners. rewrite filter_seq_S.
        rewrite decide_False; [by rewrite app_nil_r |].
        unfold locked_at. congruence. }
      assert (HuS : unlockedCorners lockedList (S i)
                    = unlockedCorners lockedList i ++ [i]).
      { unfold unlockedCorners. rewrite filter_seq_S.
        rewrite decide_True; [done |]. unfold locked_at. congruence. }
      rewrite Hf. simpl. rewrite decide_True by lia.
      simpl. rewrite Hv. simpl. rewrite decide_True by lia. simpl.
      eexists. split; [done |].
      unfold locks_inv. simpl. rewrite HlS, HuS, !length_insert.
      rewrite length_app. simpl.
      split; [done |]. split; [lia |]. split; [done |].
      rewrite !(cornersAt_snoc _ _ i _) by done.
      split; [done |]. split; [done |].
      split; apply take_put_snoc; (lia || done).
Qed.

(** The partition into locked and unlocked positions: no overlap, no
    omission, lengths adding up, order kept. *)
Lemma locked_unlocked_partition (lockedList : list Z) (n : nat) :
  (forall i, i ∈ lockedCorners lockedList n ->
             i ∉ unlockedCorners lockedList n) /\
  lockedCorners lockedList n ++ unlockedCorners lockedList n ≡ₚ seq 0 n /\
  (length (lockedCorners lockedList n)
   + length (unlockedCorners lockedList n) = n)%nat /\
  lockedCorners lockedList n `sublist_of` seq 0 n /\
  unlockedCorners lockedList n `sublist_of` seq 0 n.
Proof.
  assert (Hperm : lockedCorners lockedList n ++ unlockedCorners lockedList n
                  ≡ₚ seq 0 n) by apply filter_app_complement.
  split; [|split; [done |split; [|split; apply sublist_filter]]].
  - unfold lockedCorners, unlockedCorners. intros i.
    rewrite !list_elem_of_filter. intros [Hl _] [Hu _]. by apply Hu.
  - rewrite <- length_app, Hperm. apply length_seq.
Qed.

Lemma length_zero_nil {A} (l : list A) : length l = 0%nat <-> l = [].
Proof. by destruct l. Qed.

(** C3.  Lock partition.  On a mesh with well-formed topology and a lock
    flag for every corner, the locked positions (flag 1) and the unlocked
    positions (any other flag) are disjoint, cover all corner positions,
    have lengths adding up to the corner count and keep the enumeration
    order; [setFaceVertexLocks] hands the (face, vertex) pairs at the
    unlocked positions to one unlock call, then those at the locked
    positions to one lock call, and issues no call for an empty
    subset (the lock call is also not reached when the unlock call
    failed). *)
Theorem setFaceVertexLocks_partition (mesh : MObject) (lockedList : list Z)
  (w : World) (counts connects : list Z) :
  mesh_getVertices (view (store w) mesh) = (kSuccess, (counts, connects)) ->
  Forall (fun c => 0 <= c) counts ->
  Z.of_nat (length connects) = sumCounts counts ->
  (length connects <= length lockedList)%nat ->
  let n := length connects in
  let faceList := cornerFaces 0 counts in
  let lockedSubset := lockedCorners lockedList n in
  let unlockedSubset := unlockedCorners lockedList n in
  ((forall i, i ∈ lockedSubset -> i ∉ unlockedSubset) /\
   lockedSubset ++ unlockedSubset ≡ₚ seq 0 n /\
   (length lockedSubset + length unlockedSubset = n)%nat /\
   lockedSubset `sublist_of` seq 0 n /\
   unlockedSubset `sublist_of` seq 0 n) /\
  exists status w' su sl,
    setFaceVertexLocks mesh lockedList w = Some (status, w') /\
    log w' =
      log w
      ++ (if decide (unlockedSubset = []) then []
          else [(FnUnlockFaceVertexNormals mesh
                   (cornersAt unlockedSubset faceList)
                   (cornersAt unlockedSubset connects), su)])
      ++ (if decide (lockedSubset = [] \/
                     (unlockedSubset <> [] /\ status_error su = true))
          then []
          else [(FnLockFaceVertexNormals mesh
                   (cornersAt lockedSubset faceList)
                   (cornersAt lockedSubset connects), sl)]) /\
    (status_error status = true ->
     (unlockedSubset <> [] /\ status = su) \/
     (lockedSubset <> [] /\ status = sl)).
Proof.
  intros Hmesh Hpos Hsum Hll n faceList lockedSubset unlockedSubset.
  split; [apply locked_unlocked_partition |].
  destruct (getFaceVertexList_run fillInt counts connects [] [] Hpos Hsum)
    as [Hfvl Hfl].
  destruct (setFaceVertexLocks_loop lockedList faceList connects n Hfl
              eq_refl Hll)
    as (s & Hloop & HL & HUL & (H1 & H2 & H3 & H4) & Hlf & Hlv & Huf & Huv).
  fold lockedSubset in HL, Hlf, Hlv. fold unlockedSubset in HUL, Huf, Huv.
  assert (HLn : (ls_L s <= n)%nat).
  { rewrite HL. apply filter_seq_length. }
  assert (HULn : (ls_UL s <= n)%nat).
  { rewrite HUL. apply filter_seq_length. }
  unfold setFaceVertexLocks, bind, getStore, lift, check.
  rewrite Hmesh. simpl. rewrite Hfvl. fold n faceList. rewrite Hloop.
  unfold setLength. rewrite !resize_le by lia.
  rewrite Hlf, Hlv, Huf, Huv.
  destruct (decide (ls_UL s = 0%nat)) as [HU0 | HU0].
  - assert (HU : unlockedSubset = []).
    { apply length_zero_nil. congruence. }
    destruct (decide (unlockedSubset = [])) as [_ | ?]; [|done].
    simpl. destruct (decide (ls_L s = 0%nat)) as [HL0 | HL0].
    + assert (HLnil : lockedSubset = []).
      { apply length_zero_nil. congruence. }
      exists kSuccess, w, kSuccess, kSuccess. simpl.
      split; [done |]. rewrite decide_True by (by left).
      split; [by rewrite ?app_nil_r | done].
    + assert (HLnil : lockedSubset <> []).
      { intros Heq. apply HL0. rewrite HL, Heq. done. }
      unfold call.
      destruct (exec _ (store w)) as [st1 sl] eqn:Hexec. simpl.
      exists (if status_error sl then sl else kSuccess),
        (mkWorld st1 (log w ++ [(FnLockFaceVertexNormals mesh
                   (cornersAt lockedSubset faceList)
                   (cornersAt lockedSubset connects), sl)])), kSuccess, sl.
      split; [by destruct (status_error sl) |].
      rewrite decide_False by (intros [? | [? _]]; done).
      split; [done |]. destruct (status_error sl) eqn:Hsl; [|done].
      intros _. by right.
  - assert (HU : unlockedSubset <> []).
    { intros Heq. apply HU0. rewrite HUL, Heq. done. }
    destruct (decide (unlockedSubset = [])) as [? | _]; [done |].
    unfold call at 1.
    destruct (exec _ (store w)) as [st1 su] eqn:Hexec. simpl.
    destruct (status_error su) eqn:Hsu.
    + exists su, (mkWorld st1 (log w ++ [(FnUnlockFaceVertexNormals mesh
                   (cornersAt unlockedSubset faceList)
                   (cornersAt unlockedSubset connects), su)])), su, kSuccess.
      unfold ret. split; [done |].
      rewrite decide_True by (by right).
      split; [by rewrite ?app_nil_r |]. intros _. by left.
    + destruct (decide (ls_L s = 0%nat)) as [HL0 | HL0].
      * assert (HLnil : lockedSubset = []).
        { apply length_zero_nil. congruence. }
        exists kSuccess,
          (mkWorld st1 (log w ++ [(FnUnlockFaceVertexNormals mesh
                   (cornersAt unlockedSubset faceList)
                   (cornersAt unlockedSubset connects), su)])), su, kSuccess.
        unfold ret. simpl. rewrite Hsu. split; [done |].
        rewrite decide_True by (by left).
        split; [by rewrite ?app_nil_r | done].
      * assert (HLnil : lockedSubset <> []).
        { intros Heq. apply HL0. rewrite HL, Heq. done. }
        unfold call. simpl.
        destruct (exec _ st1) as [st2 sl] eqn:Hexec2. simpl.
        exists (if status_error sl then sl else kSuccess),
          (mkWorld st2 ((log w ++ [(FnUnlockFaceVertexNormals mesh
                   (cornersAt unlockedSubset faceList)
                   (cornersAt unlockedSubset connects), su)])
                ++ [(FnLockFaceVertexNormals mesh
                   (cornersAt lockedSubset faceList)
                   (cornersAt lockedSubset connects), sl)])), su, sl.
        split; [by destruct (status_error sl) |].
        rewrite decide_False by (intros [? | [_ ?]]; congruence).
        split; [by rewrite <- app_assoc |].
        destruct (status_error sl) eqn:Hsl; [|done].
        intros _. by right.
Qed.

(** *** getPoints without the bijection *)

Lemma getPoints_body_Some (inPoints : list Point) (pointOrder : list Z)
  (j : nat) (out out' : list Point) :
  getPoints_body inPoints pointOrder j out = Some out' <->
  exists p k, inPoints !! j = Some p /\ pointOrder !! j = Some k /\
              0 <= k < Z.of_nat (length out) /\
              out' = <[Z.to_nat k := p]> out.
Proof.
  unfold getPoints_body. split.
  - intros H. destruct (inPoints !! j) as [p|]; [|done]. simpl in H.
    destruct (pointOrder !! j) as [k|]; [|done]. simpl in H.
    apply array_set_Some in H as [Hk ->]. by exists p, k.
  - intros (p & k & -> & -> & Hk & ->). simpl. by apply array_set_Some.
Qed.

Lemma getPoints_inv_step (inPoints : list Point) (pointOrder : list Z)
  (n j : nat) (out out' : list Point) :
  getPoints_inv inPoints pointOrder n j out ->
  getPoints_body inPoints pointOrder j out = Some out' ->
  getPoints_inv inPoints pointOrder n (S j) out'.
Proof.
  intros (Hlen & Hrange & Hcells)
         (p & k & Hp & Hk & Hkr & ->)%getPoints_body_Some.
  rewrite Hlen in Hkr.
  assert (Hrange' : forall (i : nat) (k0 : Z),
             (i < S j)%nat -> pointOrder !! i = Some k0 ->
             0 <= k0 < Z.of_nat n).
  { intros i k0 Hi Hk0. destruct (decide (i = j)) as [-> | Hne].
    - by simplify_eq.
    - apply (Hrange i); [lia | done]. }
  split; [by rewrite length_insert |]. split; [done |].
  intros i k0 Hi Hk0 Hlast. destruct (decide (i = j)) as [-> | Hne].
  - simplify_eq. rewrite Hp. apply list_lookup_insert_eq. lia.
  - assert (k <> k0) by (apply (Hlast j); [lia | done]).
    pose proof (Hrange' i k0 Hi Hk0).
    rewrite list_lookup_insert_ne by lia.
    apply Hcells; [lia | done |].
    intros i' k' Hi'. apply Hlast. lia.
Qed.

Lemma getPoints_inv_start (inPoints : list Point) (pointOrder : list Z)
  (out : list Point) :
  getPoints_inv inPoints pointOrder (length out) 0 out.
Proof. split; [done |]. split; intros; lia. Qed.

(** *** Round trip of getPoints *)

Lemma bijection_on_surj (n : nat) (pointOrder : list Z) (k : Z) :
  bijection_on n pointOrder -> 0 <= k < Z.of_nat n ->
  exists i : nat, pointOrder !! i = Some k.
Proof.
  intros (Hlen & Hnd & Hrange) Hk.
  assert (Hperm : pointOrder ≡ₚ seqZ 0 (Z.of_nat n)).
  { apply submseteq_length_Permutation.
    - apply NoDup_submseteq; [done |]. intros x Hx.
      rewrite Forall_forall in Hrange. apply elem_of_seqZ.
      specialize (Hrange x Hx). lia.
    - rewrite length_seqZ. lia. }
  apply list_elem_of_lookup_1. rewrite Hperm. apply elem_of_seqZ. lia.
Qed.

Lemma inverse_of_lookup (n : nat) (pointOrder inverse : list Z) (a : nat)
  (x : Z) :
  bijection_on n pointOrder -> inverse_of pointOrder inverse ->
  inverse !! a = Some x ->
  exists i : nat, x = Z.of_nat i /\ (i < n)%nat /\
                  pointOrder !! i = Some (Z.of_nat a).
Proof.
  intros Hbij [Hlen Hinv] Ha.
  assert (Han : (a < n)%nat).
  { apply lookup_lt_Some in Ha. destruct Hbij as [<- _]. lia. }
  destruct (bijection_on_surj n pointOrder (Z.of_nat a) Hbij) as [i Hi];
    [lia |].
  exists i. pose proof (Hinv i _ Hi) as Hia. rewrite Nat2Z.id in Hia.
  split; [congruence |]. split; [|done].
  by destruct (bijection_on_lookup _ _ _ _ Hbij Hi).
Qed.

Lemma inverse_of_bijection (n : nat) (pointOrder inverse : list Z) :
  bijection_on n pointOrder -> inverse_of pointOrder inverse ->
  bijection_on n inverse.
Proof.
  intros Hbij Hinv. split; [|split].
  - destruct Hinv as [-> _]. by destruct Hbij.
  - apply NoDup_alt. intros a b x Ha Hb.
    destruct (inverse_of_lookup _ _ _ _ _ Hbij Hinv Ha) as (i & -> & _ & Hi).
    destruct (inverse_of_lookup _ _ _ _ _ Hbij Hinv Hb) as (j & Hij & _ & Hj).
    apply Nat2Z.inj in Hij. subst j. rewrite Hi in Hj.
    apply Nat2Z.inj. congruence.
  - apply Forall_forall. intros x [a Ha]%list_elem_of_lookup_1.
    destruct (inverse_of_lookup _ _ _ _ _ Hbij Hinv Ha) as (i & -> & Hi & _).
    lia.
Qed.

(** C7.  Bijection round trip: when [pointOrder] is a permutation of
    [0, N) and [inverse] is its inverse, remapping the points of a mesh
    with [pointOrder] and then remapping the resulting points with
    [inverse] gives back the original point sequence. *)
Theorem getPoints_round_trip (st : Store) (mesh remapped : MObject)
  (pointOrder inverse : list Z) (out1 out2 newPoints : list Point) :
  let original := mesh_getPoints (view st mesh) in
  mesh_numVertices (view st mesh) = length original ->
  bijection_on (length original) pointOrder ->
  inverse_of pointOrder inverse ->
  getPoints st mesh pointOrder out1 = Some (kSuccess, newPoints) ->
  mesh_getPoints (view st remapped) = newPoints ->
  mesh_numVertices (view st remapped) = length newPoints ->
  getPoints st remapped inverse out2 = Some (kSuccess, original).
Proof.
  intros original Hn Hbij Hinv Hfirst Hpoints Hn2.
  (* the first remap *)
  unfold getPoints in Hfirst. rewrite Hn in Hfirst. fold original in Hfirst.
  destruct (getPoints_loop_bijection original pointOrder
              (setLength fillPoint (length original) out1) Hbij)
    as (np & Hrun1 & Hlen1 & Hall1); [apply setLength_length |].
  rewrite Hrun1 in Hfirst. simpl in Hfirst.
  assert (np = newPoints) by congruence. subst np. clear Hfirst.
  (* the second remap *)
  pose proof (inverse_of_bijection _ _ _ Hbij Hinv) as Hbij2.
  rewrite <- Hlen1 in Hbij2.
  unfold getPoints. rewrite Hn2, Hpoints.
  destruct (getPoints_loop_bijection newPoints inverse
              (setLength fillPoint (length newPoints) out2) Hbij2)
    as (back & Hrun2 & Hlen2 & Hall2); [apply setLength_length |].
  rewrite Hrun2. simpl. do 2 f_equal.
  apply list_eq. intros i.
  destruct (decide (i < length original)%nat) as [Hi | Hi].
  - destruct (lookup_lt_is_Some_2 pointOrder i) as [k Hk].
    { destruct Hbij as [-> _]. done. }
    destruct Hinv as [_ Hinv].
    pose proof (Hall2 _ _ (Hinv i k Hk)) as H2. rewrite Nat2Z.id in H2.
    rewrite H2. by apply Hall1.
  - rewrite !lookup_ge_None_2; [done | lia | lia].
Qed.

(** *** setEdgeSmoothing *)

Lemma subscript_default (es0 es es' : gmap Z bool) (k : Z) (b : bool) :
  (forall k', default false (es !! k') = default false (es0 !! k')) ->
  subscript es k = (b, es') ->
  b = default false (es0 !! k) /\
  (forall k', default false (es' !! k') = default false (es0 !! k')).
Proof.
  intros Hagree Hsub. unfold subscript in Hsub.
  destruct (es !! k) as [b'|] eqn:Hk; simplify_eq.
  - split; [|done]. rewrite <- Hagree, Hk. done.
  - split; [by rewrite <- Hagree, Hk |].
    intros k'. destruct (decide (k = k')) as [<- | Hne].
    + rewrite lookup_insert_eq. rewrite <- Hagree, Hk. done.
    + by rewrite lookup_insert_ne.
Qed.

Lemma setEdgeSmoothing_loop_calls (mesh : MObject) (es0 : gmap Z bool)
  (edges : list Edge) :
  forall (i : nat) (es : gmap Z bool) (w : World),
    (forall k, default false (es !! k) = default false (es0 !! k)) ->
    exists es' w',
      setEdgeSmoothing_loop mesh i edges es w = Some (es', w') /\
      (log w').*1 = (log w).*1 ++ expectedSmoothing mesh i edges es0 /\
      (forall k, default false (es' !! k) = default false (es0 !! k)).
Proof.
  induction edges as [|e rest IH]; intros i es w Hagree; simpl.
  - exists es, w. unfold ret. by rewrite app_nil_r.
  - destruct (subscript es (twoIntKey (edge_index0 e) (edge_index1 e)))
      as [smooth es1] eqn:Hsub.
    destruct (subscript_default _ _ _ _ _ Hagree Hsub) as [-> Hagree1].
    unfold bind, call.
    destruct (exec _ (store w)) as [st1 status] eqn:Hexec.
    destruct (IH (S i) es1
                (mkWorld st1 (log w ++ [(ItSetSmoothing mesh i
                   (default false (es0 !! twoIntKey (edge_index0 e)
                                           (edge_index1 e))), status)]))
                Hagree1) as (es' & w' & Hrun & Hlog & Hagree').
    exists es', w'. split; [done |]. split; [|done].
    rewrite Hlog. simpl. rewrite fmap_app, <- app_assoc. done.
Qed.

Lemma expectedSmoothing_lookup (mesh : MObject) (es : gmap Z bool)
  (edges : list Edge) :
  forall (i j : nat) (e : Edge),
    edges !! j = Some e ->
    expectedSmoothing mesh i edges es !! j
    = Some (ItSetSmoothing mesh (i + j)
              (default false
                 (es !! twoIntKey (edge_index0 e) (edge_index1 e)))).
Proof.
  induction edges as [|e0 rest IH]; intros i j e He; [done |].
  destruct j as [|j]; simpl in *.
  - simplify_eq. by rewrite Nat.add_0_r.
  - rewrite (IH (S i) j e He). do 2 f_equal. lia.
Qed.

Lemma expectedSmoothing_length (mesh : MObject) (es : gmap Z bool)
  (edges : list Edge) (i : nat) :
  length (expectedSmoothing mesh i edges es) = length edges.
Proof.
  revert i. induction edges as [|e rest IH]; intros i; simpl; [done |].
  by rewrite IH.
Qed.

(** C6.  Missing edge key: [setEdgeSmoothing] always returns success.  It
    issues one [setSmoothing] call per edge of the mesh, in edge order;
    an edge whose key is absent from the map is set to [false] (hard), an
    edge whose key is present is set to the stored flag. *)
Theorem setEdgeSmoothing_missing_key (mesh : MObject)
  (edgeSmoothing : gmap Z bool) (w : World) :
  let edges := mesh_edges (view (store w) mesh) in
  exists (es' : gmap Z bool) (w' : World) (calls : list Call),
    setEdgeSmoothing mesh edgeSmoothing w = Some ((kSuccess, es'), w') /\
    (log w').*1 = (log w).*1 ++ calls /\
    length calls = length edges /\
    forall (j : nat) (e : Edge),
      edges !! j = Some e ->
      let edgeKey := twoIntKey (edge_index0 e) (edge_index1 e) in
      (edgeSmoothing !! edgeKey = None ->
       calls !! j = Some (ItSetSmoothing mesh j false)) /\
      (forall b, edgeSmoothing !! edgeKey = Some b ->
                 calls !! j = Some (ItSetSmoothing mesh j b)).
Proof.
  intros edges.
  destruct (setEdgeSmoothing_loop_calls mesh edgeSmoothing edges 0%nat
              edgeSmoothing w) as (es' & w' & Hrun & Hlog & _); [done |].
  exists es', w', (expectedSmoothing mesh 0 edges edgeSmoothing).
  split; [|split; [done | split; [apply expectedSmoothing_length |]]].
  - unfold setEdgeSmoothing, bind, getStore. fold edges. rewrite Hrun. done.
  - intros j e He edgeKey.
    pose proof (expectedSmoothing_lookup mesh edgeSmoothing edges 0%nat j e He)
      as Hj. fold edgeKey in Hj. simpl in Hj.
    split.
    + intros Hnone. by rewrite Hj, Hnone.
    + intros b Hb. by rewrite Hj, Hb.
Qed.

(** *** setUVs *)

(** The three checked calls of one iteration, followed by the rest of the
    loop. *)
Lemma setUVs_set_run (mesh : MObject) (uv : UVSetData) (n : string)
  (rest : list UVSetData) (w : World) :
  (forall w1, exists status w' evs,
      setUVs_loop mesh rest w1 = Some (status, w') /\
      log w' = log w1 ++ evs /\ setUVs_protocol mesh rest evs status) ->
  exists status w' evs,
    bind (call (FnClearUVs mesh n)) (fun status =>
      check status (
      bind (call (FnSetUVs mesh (uArray uv) (vArray uv) n)) (fun status =>
      check status (
      bind (call (FnAssignUVs mesh (uvCounts uv) (uvIds uv) n)) (fun status =>
      check status (setUVs_loop mesh rest)))))) w = Some (status, w') /\
    log w' = log w ++ evs /\ uvSet_protocol mesh uv n rest evs status.
Proof.
  intros IH. unfold bind, call, check, ret.
  destruct (exec (FnClearUVs mesh n) (store w)) as [st1 s1] eqn:H1. simpl.
  destruct (status_error s1) eqn:E1.
  { eexists _, _, _. split; [done |]. split; [done |].
    by apply uv_clear_failed. }
  simpl.
  destruct (exec (FnSetUVs mesh (uArray uv) (vArray uv) n) st1)
    as [st2 s2] eqn:H2. simpl.
  destruct (status_error s2) eqn:E2.
  { eexists _, _, _. split; [done |]. simpl.
    split; [by rewrite <- app_assoc |]. by apply uv_coords_failed. }
  simpl.
  destruct (exec (FnAssignUVs mesh (uvCounts uv) (uvIds uv) n) st2)
    as [st3 s3] eqn:H3. simpl.
  destruct (status_error s3) eqn:E3.
  { eexists _, _, _. split; [done |]. simpl.
    split; [by rewrite <- !app_assoc |]. by apply uv_assign_failed. }
  simpl.
  match goal with
  | |- context [setUVs_loop mesh rest ?w1] =>
      destruct (IH w1) as (status & w' & evs & Hrun & Hlog & Hproto)
  end.
  exists status, w',
    ((FnClearUVs mesh n, s1) :: (FnSetUVs mesh (uArray uv) (vArray uv) n, s2)
     :: (FnAssignUVs mesh (uvCounts uv) (uvIds uv) n, s3) :: evs).
  split; [done |]. split; [|by apply uv_applied].
  rewrite Hlog. simpl. by rewrite <- !app_assoc.
Qed.

(** C9.  UV set application order: [setUVs] always returns, and the calls
    it logs follow the protocol: sets in list order; for a set not named
    "map1" a creation call first, whose failure does not stop anything;
    then clear, coordinates, assignments, where the first failure among
    these three ends the run with that status. *)
Theorem setUVs_order (mesh : MObject) (uvSets : list UVSetData) (w : World) :
  exists (status : MStatus) (w' : World) (evs : list Event),
    setUVs mesh uvSets w = Some (status, w') /\
    log w' = log w ++ evs /\
    setUVs_protocol mesh uvSets evs status.
Proof.
  unfold setUVs. revert w.
  induction uvSets as [|uv rest IH]; intros w.
  - exists kSuccess, w, []. simpl. unfold ret.
    split; [done |]. split; [by rewrite app_nil_r | constructor].
  - simpl. unfold bind at 1.
    destruct (decide (name uv <> "map1"%string)) as [Hname | Hname].
    + unfold bind at 1. unfold getStore. unfold bind at 1. unfold call at 1.
      destruct (exec (FnCreateUVSet mesh (name uv)) (store w))
        as [st1 s] eqn:Hexec.
      unfold ret at 1.
      destruct (setUVs_set_run mesh uv (createdName (store w) mesh (name uv))
                  rest
                  (mkWorld st1 (log w ++ [(FnCreateUVSet mesh (name uv), s)]))
                  IH)
        as (status & w' & evs & Hrun & Hlog & Hproto).
      exists status, w', ((FnCreateUVSet mesh (name uv), s) :: evs).
      split; [exact Hrun |]. split.
      * rewrite Hlog. simpl. by rewrite <- app_assoc.
      * by eapply uvs_named.
    + unfold ret at 1.
      destruct (setUVs_set_run mesh uv (name uv) rest w IH)
        as (status & w' & evs & Hrun & Hlog & Hproto).
      exists status, w', evs. split; [exact Hrun |]. split; [done |].
      apply uvs_default; [|done].
      by destruct (decide (name uv = "map1"%string)); [|exfalso; auto].
Qed.

(** *** getFaceVertexNormals *)

(** The corners [suf] of a face that remain after its corners [pre]: they
    are written from index [i] on when the array is long enough, and the
    loop leaves the array otherwise. *)
Lemma getFaceVertexNormals_inner_run (suf : list Vector) :
  forall (pre : list Vector) (i : nat) (vn : list Vector),
    (i <= length vn)%nat ->
    for_range (length pre) (length suf)
      (getFaceVertexNormals_inner (pre ++ suf)) (i, vn)
    = if decide (i + length suf <= length vn)%nat
      then Some ((i + length suf)%nat,
                 take i vn ++ suf ++ drop (i + length suf) vn)
      else None.
Proof.
  induction suf as [|x suf IH]; intros pre i vn Hi; simpl.
  - rewrite Nat.add_0_r, decide_True by done. by rewrite take_drop.
  - unfold getFaceVertexNormals_inner at 1. simpl.
    rewrite list_lookup_middle by done. simpl. unfold array_put.
    destruct (decide (i < length vn)%nat) as [Hlt | Hge]; simpl.
    + replace (S (length pre)) with (length (pre ++ [x]))
        by (rewrite length_app; simpl; lia).
      rewrite (cons_middle x pre suf), app_assoc.
      rewrite IH by (rewrite length_insert; lia).
      rewrite length_insert.
      destruct (decide (S i + length suf <= length vn)%nat) as [Hfit | Hfit].
      * rewrite decide_True by lia.
        rewrite (take_put_snoc vn (take i vn) i x Hlt eq_refl).
        rewrite drop_insert_lt by lia.
        replace (i + S (length suf))%nat with (S i + length suf)%nat by lia.
        by rewrite <- app_assoc.
      * by rewrite decide_False by lia.
    + by rewrite decide_False by lia.
Qed.

Lemma getFaceVertexNormals_outer_run (polys : list (list Vector)) :
  forall (f i : nat) (vn : list Vector),
    (i <= length vn)%nat ->
    for_each f polys getFaceVertexNormals_outer (i, vn)
    = if decide (i + length (concat polys) <= length vn)%nat
      then Some ((i + length (concat polys))%nat,
                 take i vn ++ concat polys
                 ++ drop (i + length (concat polys)) vn)
      else None.
Proof.
  induction polys as [|poly rest IH]; intros f i vn Hi; simpl.
  - rewrite Nat.add_0_r, decide_True by done. by rewrite take_drop.
  - unfold getFaceVertexNormals_outer at 1.
    pose proof (getFaceVertexNormals_inner_run poly [] i vn Hi) as Hface.
    simpl in Hface. rewrite Hface. clear Hface.
    rewrite length_app.
    destruct (decide (i + length poly <= length vn)%nat) as [Hfit | Hfit];
      [|by rewrite decide_False by lia].
    assert (Hpre : length (take i vn ++ poly) = (i + length poly)%nat).
    { rewrite length_app, length_take_le by done. done. }
    assert (Hlen : length (take i vn ++ poly ++ drop (i + length poly) vn)
                   = length vn).
    { rewrite !length_app, length_take_le, length_drop by done. lia. }
    rewrite IH by (rewrite Hlen; lia). rewrite Hlen.
    destruct (decide (i + length poly + length (concat rest)
                      <= length vn)%nat) as [Hall | Hall].
    + rewrite decide_True by lia.
      rewrite (app_assoc (take i vn) poly).
      rewrite (take_app_length' _ _ _ (eq_sym Hpre)).
      rewrite <- (drop_drop _ (length (concat rest)) (i + length poly)).
      rewrite (drop_app_length' _ _ _ (eq_sym Hpre)).
      rewrite drop_drop.
      replace (i + (length poly + length (concat rest)))%nat
        with (i + length poly + length (concat rest))%nat by lia.
      by rewrite <- !app_assoc.
    + by rewrite decide_False by lia.
Qed.

Lemma getFaceVertexNormals_run (st : Store) (mesh : MObject)
  (vertexNormals : list Vector) :
  let normals := concat (mesh_polygons (view st mesh)) in
  getFaceVertexNormals st mesh vertexNormals
  = if decide (length normals <= length vertexNormals)%nat
    then Some (kSuccess, normals ++ drop (length normals) vertexNormals)
    else None.
Proof.
  intros normals. unfold getFaceVertexNormals.
  rewrite getFaceVertexNormals_outer_run by lia. fold normals. simpl.
  by case_decide.
Qed.

(** C10, amended.  Implicit precondition of normal extraction:
    [getFaceVertexNormals] stays inside [vertexNormals] exactly when the
    array has at least as many cells as the mesh has face-corners; it
    then writes the corner normals to the cells [0 .. corners - 1] and
    leaves the other cells alone.  [reorderMesh] sizes the array to the
    length of the connectivity array that [getPolys] read from the source
    mesh and extracts from the target mesh: the precondition holds there
    exactly when the target mesh has no more corners than the source
    connectivity has entries.  In that case the operation goes on with
    the target's corner normals; otherwise the extraction inside
    [reorderMesh] leaves the array. *)
Theorem getFaceVertexNormals_presized (sourceMesh targetMesh : MObject)
  (pointOrder : list Z) (outMesh : MObject) (isMeshData : bool) (w : World)
  (vertexNormals : list Vector) :
  let normals := concat (mesh_polygons (view (store w) targetMesh)) in
  let corners := length normals in
  (is_Some (getFaceVertexNormals (store w) targetMesh vertexNormals) <->
   (corners <= length vertexNormals)%nat) /\
  ((corners <= length vertexNormals)%nat ->
   getFaceVertexNormals (store w) targetMesh vertexNormals
   = Some (kSuccess, normals ++ drop corners vertexNormals)) /\
  (forall s1 points s2 polyCounts polyConnects,
      getPoints (store w) targetMesh pointOrder [] = Some (s1, points) ->
      getPolys (store w) sourceMesh pointOrder isMeshData
        = Some (s2, (polyCounts, polyConnects)) ->
      (is_Some (getFaceVertexNormals (store w) targetMesh
                  (setLength fillVector (length polyConnects) []))
       <-> (corners <= length polyConnects)%nat) /\
      ((corners <= length polyConnects)%nat ->
       reorderMesh sourceMesh targetMesh pointOrder outMesh isMeshData w
       = reorderMesh_rest targetMesh pointOrder outMesh isMeshData
           (mesh_numVertices (view (store w) sourceMesh))
           (mesh_numPolygons (view (store w) sourceMesh))
           points polyCounts polyConnects
           (normals ++ replicate (length polyConnects - corners) fillVector)
           w) /\
      ((length polyConnects < corners)%nat ->
       reorderMesh sourceMesh targetMesh pointOrder outMesh isMeshData w
       = None)).
Proof.
  intros normals corners.
  pose proof (getFaceVertexNormals_run (store w) targetMesh) as Hrun.
  fold normals corners in Hrun. split; [|split].
  - rewrite Hrun. case_decide.
    + split; [done | by eexists].
    + split; [by intros [? ?] | done].
  - intros Hfit. rewrite Hrun. by rewrite decide_True.
  - intros s1 points s2 polyCounts polyConnects Hpoints Hpolys.
    assert (Hsized : length (setLength fillVector (length polyConnects)
                               ([] : list Vector)) = length polyConnects)
      by apply setLength_length.
    split; [|split].
    + rewrite Hrun, Hsized. case_decide.
      * split; [done | by eexists].
      * split; [by intros [? ?] | done].
    + intros Hfit. unfold reorderMesh, bind, getStore, lift.
      rewrite Hpoints, Hpolys, Hrun.
      unfold setLength. rewrite resize_nil, length_replicate.
      rewrite decide_True by done. by rewrite drop_replicate.
    + intros Hshort. unfold reorderMesh, bind, getStore, lift.
      rewrite Hpoints, Hpolys, Hrun, Hsized.
      by rewrite decide_False by lia.
Qed.

(** *** Error propagation *)

Lemma stops_at_failure_quiet (evs : list Event) (status : MStatus) :
  Forall (fun e => failed e = false) evs -> stops_at_failure evs status.
Proof.
  induction 1 as [|e evs He _ IH]; simpl; [done |]. by rewrite He.
Qed.

Lemma stops_at_failure_app (evs1 evs2 : list Event) (status : MStatus) :
  Forall (fun e => failed e = false) evs1 ->
  stops_at_failure evs2 status ->
  stops_at_failure (evs1 ++ evs2) status.
Proof.
  induction 1 as [|e evs He _ IH]; simpl; [done |]. rewrite He. auto.
Qed.

Lemma stops_at_failure_ok (evs : list Event) (status : MStatus) :
  stops_at_failure evs status -> status_error status = false ->
  Forall (fun e => failed e = false) evs.
Proof.
  intros Hstops Hok. induction evs as [|e evs IH]; [constructor |].
  simpl in Hstops. destruct (failed e) eqn:He.
  - destruct Hstops as [_ ->]. unfold failed in He.
    apply andb_prop in He as [_ He]. congruence.
  - constructor; [done | by apply IH].
Qed.

Lemma quiet_ret {A} (a : A) : quiet (ret a).
Proof.
  intros w a' w' H. unfold ret in H. simplify_eq.
  exists []. by rewrite app_nil_r.
Qed.

Lemma quiet_getStore : quiet getStore.
Proof.
  intros w a' w' H. unfold getStore in H. simplify_eq.
  exists []. by rewrite app_nil_r.
Qed.

Lemma quiet_lift {A} (o : option A) : quiet (lift o).
Proof.
  intros w a' w' H. unfold lift in H. destruct o; simplify_eq.
  exists []. by rewrite app_nil_r.
Qed.

Lemma quiet_call (c : Call) : checked c = false -> quiet (call c).
Proof.
  intros Hc w s w' H. unfold call in H.
  destruct (exec c (store w)) as [st1 s1]. simplify_eq. simpl.
  exists [(c, s)]. split; [done |]. repeat constructor.
  unfold failed. simpl. by rewrite Hc.
Qed.

Lemma quiet_bind {A B} (m : M A) (k : A -> M B) :
  quiet m -> (forall a, quiet (k a)) -> quiet (bind m k).
Proof.
  intros Hm Hk w b w' H. unfold bind in H.
  destruct (m w) as [[a w1]|] eqn:Hmw; [|done].
  destruct (Hm _ _ _ Hmw) as (evs1 & Hlog1 & Hq1).
  destruct (Hk a _ _ _ H) as (evs2 & Hlog2 & Hq2).
  exists (evs1 ++ evs2). split.
  - by rewrite Hlog2, Hlog1, app_assoc.
  - by apply Forall_app.
Qed.

Lemma propagates_ret (s : MStatus) : propagates (ret s).
Proof.
  intros w s' w' H. unfold ret in H. simplify_eq.
  exists []. by rewrite app_nil_r.
Qed.

Lemma propagates_call (c : Call) : propagates (call c).
Proof.
  intros w s w' H. unfold call in H.
  destruct (exec c (store w)) as [st1 s1]. simplify_eq. simpl.
  exists [(c, s)]. split; [done |]. simpl. by destruct (failed (c, s)).
Qed.

Lemma propagates_check (s : MStatus) (k : M MStatus) :
  propagates k -> propagates (check s k).
Proof.
  intros Hk. unfold check. destruct (status_error s); [|done].
  apply propagates_ret.
Qed.

(** A step whose status is checked, followed by the rest (which may
    read that status). *)
Lemma propagates_checked_bind (m : M MStatus) (k : MStatus -> M MStatus) :
  propagates m -> (forall s, propagates (k s)) ->
  propagates (bind m (fun status => check status (k status))).
Proof.
  intros Hm Hk w status w' H. unfold bind in H.
  destruct (m w) as [[s w1]|] eqn:Hmw; [|done].
  destruct (Hm _ _ _ Hmw) as (evs1 & Hlog1 & Hs1).
  unfold check in H. destruct (status_error s) eqn:Hs.
  - unfold ret in H. simplify_eq. by exists evs1.
  - destruct (Hk s _ _ _ H) as (evs2 & Hlog2 & Hs2).
    exists (evs1 ++ evs2). split.
    + by rewrite Hlog2, Hlog1, app_assoc.
    + apply stops_at_failure_app; [|done].
      by eapply stops_at_failure_ok.
Qed.

Lemma propagates_checked_step (m : M MStatus) (k : M MStatus) :
  propagates m -> propagates k ->
  propagates (bind m (fun status => check status k)).
Proof.
  intros Hm Hk. by apply (propagates_checked_bind m (fun _ => k)).
Qed.

(** Steps that cannot fail in a checked call, followed by the rest. *)
Lemma propagates_quiet_step {A} (m : M A) (k : A -> M MStatus) :
  quiet m -> (forall a, propagates (k a)) -> propagates (bind m k).
Proof.
  intros Hm Hk w status w' H. unfold bind in H.
  destruct (m w) as [[a w1]|] eqn:Hmw; [|done].
  destruct (Hm _ _ _ Hmw) as (evs1 & Hlog1 & Hq1).
  destruct (Hk a _ _ _ H) as (evs2 & Hlog2 & Hs2).
  exists (evs1 ++ evs2). split.
  - by rewrite Hlog2, Hlog1, app_assoc.
  - by apply stops_at_failure_app.
Qed.

Lemma setUVs_propagates (mesh : MObject) (uvSets : list UVSetData) :
  propagates (setUVs mesh uvSets).
Proof.
  unfold setUVs. induction uvSets as [|uv rest IH]; simpl.
  - apply propagates_ret.
  - apply propagates_quiet_step.
    + case_decide; [|apply quiet_ret].
      apply quiet_bind; [apply quiet_getStore |]. intros st.
      apply quiet_bind; [by apply quiet_call |]. intros _. apply quiet_ret.
    + intros n.
      apply propagates_checked_step; [apply propagates_call |].
      apply propagates_checked_step; [apply propagates_call |].
      apply propagates_checked_step; [apply propagates_call | done].
Qed.

Lemma setFaceVertexNormals_propagates (mesh : MObject)
  (polyCounts polyConnects : list Z) (vertexNormals : list Vector) :
  propagates (setFaceVertexNormals mesh polyCounts polyConnects vertexNormals).
Proof.
  unfold setFaceVertexNormals.
  apply propagates_quiet_step; [apply quiet_lift |]. intros [fl vl].
  apply propagates_checked_step; [apply propagates_call |].
  apply propagates_checked_step; [apply propagates_call |].
  apply propagates_ret.
Qed.

Lemma setFaceVertexLocks_propagates (mesh : MObject) (lockedList : list Z) :
  propagates (setFaceVertexLocks mesh lockedList).
Proof.
  unfold setFaceVertexLocks.
  apply propagates_quiet_step; [apply quiet_getStore |]. intros st.
  destruct (mesh_getVertices (view st mesh)) as [status [counts connects]].
  apply propagates_check.
  apply propagates_quiet_step; [apply quiet_lift |]. intros [fl vl].
  apply propagates_quiet_step; [apply quiet_lift |]. intros s.
  apply (propagates_checked_bind _ (fun status0 => bind _ _)).
  { case_decide; [apply propagates_ret | apply propagates_call]. }
  intros s1. apply (propagates_checked_bind _ (fun _ => ret kSuccess)).
  { case_decide; [apply propagates_ret | apply propagates_call]. }
  intros _. apply propagates_ret.
Qed.

Lemma setEdgeSmoothing_quiet (mesh : MObject) (edgeSmoothing : gmap Z bool) :
  quiet (setEdgeSmoothing mesh edgeSmoothing).
Proof.
  unfold setEdgeSmoothing.
  apply quiet_bind; [apply quiet_getStore |]. intros st.
  apply quiet_bind; [|intros; apply quiet_ret].
  generalize 0%nat. revert edgeSmoothing.
  induction (mesh_edges (view st mesh)) as [|e rest IH]; intros es i; simpl.
  - apply quiet_ret.
  - destruct (subscript es _) as [smooth es1].
    apply quiet_bind; [by apply quiet_call |]. intros _. apply IH.
Qed.

Lemma reorderMesh_build_propagates (outMesh : MObject) (isMeshData : bool)
  (numVertices numPolys : nat) (points : list Point)
  (polyCounts polyConnects : list Z) :
  propagates (reorderMesh_build outMesh isMeshData numVertices numPolys points
                polyCounts polyConnects).
Proof.
  unfold reorderMesh_build. destruct isMeshData.
  - apply propagates_call.
  - apply propagates_quiet_step; [apply quiet_lift |]. intros fp.
    apply propagates_quiet_step; [by apply quiet_call |]. intros _.
    apply propagates_ret.
Qed.

Lemma reorderMesh_apply_propagates (outMesh : MObject)
  (uvSets : list UVSetData) (polyCounts polyConnects : list Z)
  (vertexNormals : list Vector) (lockedList : list Z)
  (edgeSmoothing : gmap Z bool) :
  propagates (reorderMesh_apply outMesh uvSets polyCounts polyConnects
                vertexNormals lockedList edgeSmoothing).
Proof.
  unfold reorderMesh_apply.
  apply propagates_checked_step; [apply setUVs_propagates |].
  apply propagates_checked_step; [apply setFaceVertexNormals_propagates |].
  apply propagates_checked_step; [apply setFaceVertexLocks_propagates |].
  apply propagates_quiet_step; [apply setEdgeSmoothing_quiet |].
  intros [status es]. apply propagates_check, propagates_ret.
Qed.


(** ** Further properties of the code *)

(** *** Loops, continued *)

(** A run that returned has passed through every iteration. *)
Lemma for_range_body_defined {T} (body : nat -> T -> option T) (n : nat) :
  forall (i : nat) (s s' : T),
    for_range i n body s = Some s' ->
    forall j, (i <= j < i + n)%nat -> exists t t', body j t = Some t'.
Proof.
  induction n as [|n IH]; intros i s s' Hrun j Hj; [lia |].
  simpl in Hrun. destruct (body i s) as [t|] eqn:Hb; [|done].
  destruct (decide (j = i)) as [-> | Hne]; [by exists s, t |].
  apply (IH (S i) t s' Hrun). lia.
Qed.

(** *** getFaceVertexLocks *)

(** X1.  Lock extraction: when the normal-id query succeeds,
    [getFaceVertexLocks] returns success with one flag per normal id,
    whatever array it was handed; the flag is 1 when the normal of that
    id is locked and 0 otherwise, so the corners [setFaceVertexLocks]
    will treat as locked are exactly those whose normal id is locked. *)
Theorem getFaceVertexLocks_flags (st : Store) (mesh : MObject)
  (lockedList0 : list Z) (status : MStatus) (normalCounts normalIds : list Z) :
  mesh_getNormalIds (view st mesh) = (status, (normalCounts, normalIds)) ->
  status_error status = false ->
  exists lockedList,
    getFaceVertexLocks st mesh lockedList0 = Some (kSuccess, lockedList) /\
    length lockedList = length normalIds /\
    (forall (i : nat) (id : Z),
        normalIds !! i = Some id ->
        lockedList !! i
        = Some (if mesh_isNormalLocked (view st mesh) id then 1 else 0)) /\
    (forall i : nat,
        locked_at lockedList i <->
        exists id, normalIds !! i = Some id /\
                   mesh_isNormalLocked (view st mesh) id = true).
Proof.
  intros Hq Hok. unfold getFaceVertexLocks. rewrite Hq, Hok.
  set (n := length normalIds).
  destruct (for_range_invariant
    (fun j ll => length ll = n /\
       forall (i : nat) (id : Z), (i < j)%nat -> normalIds !! i = Some id ->
         ll !! i = Some (if mesh_isNormalLocked (view st mesh) id
                         then 1 else 0))
    (getFaceVertexLocks_body (view st mesh) normalIds) n 0%nat
    (setLength fillInt n lockedList0))
    as (ll & Hrun & Hlen & Hall).
  - split; [apply setLength_length | intros; lia].
  - intros j t Hj [Hlen Hprev].
    destruct (lookup_lt_is_Some_2 normalIds j) as [id Hid]; [fold n; lia |].
    eexists. split.
    + unfold getFaceVertexLocks_body. rewrite Hid. simpl.
      apply array_put_Some. split; [lia | done].
    + split; [by rewrite length_insert |].
      intros i id' Hi Hid'. destruct (decide (i = j)) as [-> | Hne].
      * simplify_eq. apply list_lookup_insert_eq. lia.
      * rewrite list_lookup_insert_ne by done. apply Hprev; [lia | done].
  - exists ll. rewrite Hrun. simpl. split; [done |]. split; [done |].
    assert (Hflags : forall (i : nat) (id : Z),
               normalIds !! i = Some id ->
               ll !! i = Some (if mesh_isNormalLocked (view st mesh) id
                               then 1 else 0)).
    { intros i id Hid. apply Hall; [|done].
      apply lookup_lt_Some in Hid. fold n in Hid. lia. }
    split; [done |]. intros i. unfold locked_at. split.
    + intros Hi.
      destruct (lookup_lt_is_Some_2 normalIds i) as [id Hid].
      { apply lookup_lt_Some in Hi. fold n. lia. }
      exists id. split; [done |]. rewrite (Hflags i id Hid) in Hi.
      by destruct (mesh_isNormalLocked (view st mesh) id).
    + intros (id & Hid & Hlocked). by rewrite (Hflags i id Hid), Hlocked.
Qed.

(** *** getPoints and getPolys together *)

Lemma getPolys_remapped (st : Store) (mesh : MObject) (pointOrder : list Z)
  (status : MStatus) (counts connects : list Z) :
  mesh_getVertices (view st mesh) = (status, (counts, connects)) ->
  Forall (fun v => 0 <= v < Z.of_nat (length pointOrder)) connects ->
  exists newConnects,
    getPolys st mesh pointOrder true = Some (kSuccess, (counts, newConnects)) /\
    Forall2 (fun v w => array_get pointOrder v = Some w) connects newConnects.
Proof.
  intros Hmesh Hrange. unfold getPolys. rewrite Hmesh.
  rewrite Forall_forall in Hrange.
  destruct (for_range_invariant (getPolys_inv pointOrder connects)
              (getPolys_body pointOrder) (length connects) 0%nat connects)
    as (pc & Hpc & Hinv).
  - split; [done |]. intros i. split; [lia | done].
  - intros j t Hj Ht.
    destruct (lookup_lt_is_Some_2 t j) as [v Hv].
    { destruct Ht as [-> _]. lia. }
    assert (Hvc : connects !! j = Some v).
    { destruct Ht as [_ Ht]. destruct (Ht j) as [_ Hj'].
      rewrite <- Hj' by lia. done. }
    destruct (Hrange v) as [Hv0 Hv1]; [by eapply list_elem_of_lookup_2 |].
    destruct (lookup_lt_is_Some_2 pointOrder (Z.to_nat v)) as [w Hw]; [lia |].
    exists (<[j := w]> t).
    assert (Hbody : getPolys_body pointOrder j t = Some (<[j := w]> t)).
    { apply getPolys_body_Some. exists v, w.
      split; [done |]. split; [|done]. by apply array_get_Some. }
    split; [done |]. by eapply getPolys_inv_step.
  - exists pc. rewrite Hpc. simpl. split; [done |].
    by apply getPolys_inv_end.
Qed.

(** X3.  Geometry is kept: when the points go through a bijection
    [pointOrder] and the connectivity is remapped by the same
    [pointOrder], every face-corner still refers to the position it
    referred to before. *)
Theorem remap_keeps_corner_positions (st : Store)
  (pointsMesh topologyMesh : MObject) (pointOrder : list Z)
  (outPoints : list Point) (status : MStatus) (counts connects : list Z) :
  let targetPoints := mesh_getPoints (view st pointsMesh) in
  mesh_numVertices (view st pointsMesh) = length targetPoints ->
  bijection_on (length targetPoints) pointOrder ->
  mesh_getVertices (view st topologyMesh) = (status, (counts, connects)) ->
  Forall (fun v => 0 <= v < Z.of_nat (length targetPoints)) connects ->
  exists newPoints newConnects,
    getPoints st pointsMesh pointOrder outPoints
      = Some (kSuccess, newPoints) /\
    getPolys st topologyMesh pointOrder true
      = Some (kSuccess, (counts, newConnects)) /\
    length newConnects = length connects /\
    forall (c : nat) (v : Z),
      connects !! c = Some v ->
      exists w, newConnects !! c = Some w /\
                newPoints !! Z.to_nat w = targetPoints !! Z.to_nat v.
Proof.
  intros targetPoints Hn Hbij Hmesh Hrange.
  destruct (getPoints_loop_bijection targetPoints pointOrder
              (setLength fillPoint (length targetPoints) outPoints) Hbij)
    as (newPoints & Hrun & Hlen & Hall); [apply setLength_length |].
  assert (Hrange' : Forall (fun v => 0 <= v < Z.of_nat (length pointOrder))
                      connects).
  { destruct Hbij as [-> _]. done. }
  destruct (getPolys_remapped st topologyMesh pointOrder status counts
              connects Hmesh Hrange') as (newConnects & Hpolys & Hmap).
  exists newPoints, newConnects. split.
  { unfold getPoints. rewrite Hn. fold targetPoints. by rewrite Hrun. }
  split; [done |]. split; [symmetry; by eapply Forall2_length |].
  intros c v Hv.
  destruct (Forall2_lookup_l _ _ _ _ _ Hmap Hv) as (w & Hw & Hvw).
  exists w. split; [done |].
  apply array_get_Some in Hvw as [_ Hvw]. by apply Hall.
Qed.

(** *** getFaceVertexList, continued *)

Lemma getFaceVertexList_inner_Some (connects : list Z) (i j : nat)
  (s s' : fvl_state) :
  getFaceVertexList_inner connects i j s = Some s' ->
  (s.1 < length s.2.1)%nat /\ s'.1 = S s.1 /\
  length s'.2.1 = length s.2.1 /\ length s'.2.2 = length s.2.2.
Proof.
  destruct s as [idx [fl vl]]. unfold getFaceVertexList_inner. simpl.
  destruct (array_put fl idx (Z.of_nat i)) as [fl'|] eqn:Hfl; [|done].
  destruct (connects !! idx) as [v|]; [|done].
  destruct (array_put vl idx v) as [vl'|] eqn:Hvl; [|done].
  intros ?; simplify_eq. simpl.
  apply array_put_Some in Hfl as [Hlt ->].
  apply array_put_Some in Hvl as [_ ->].
  by rewrite !length_insert.
Qed.

(** A run of the enumeration that returned has stayed below the length
    of the arrays. *)
Lemma getFaceVertexList_outer_bound (counts connects : list Z) (n : nat) :
  forall (s s' : fvl_state),
    for_range 0 n (getFaceVertexList_outer counts connects) s = Some s' ->
    s.1 = 0%nat ->
    length s.2.1 = length connects -> length s.2.2 = length connects ->
    s'.1 = length (cornerFaces 0 (take n counts)) /\
    (s'.1 <= length connects)%nat.
Proof.
  intros s s' Hrun Hidx Hfl Hvl.
  pose proof (for_range_run
    (fun i t => t.1 = length (cornerFaces 0 (take i counts)) /\
                (t.1 <= length connects)%nat /\
                length t.2.1 = length connects /\
                length t.2.2 = length connects)
    (getFaceVertexList_outer counts connects) n 0%nat s s' Hrun) as Hinv.
  simpl in Hinv. destruct Hinv as (H1 & H2 & _).
  - rewrite Hidx. split; [done |]. split; [lia | done].
  - intros i t t' _ (Ht1 & Ht2 & Ht3 & Ht4) Hbody.
    unfold getFaceVertexList_outer in Hbody.
    destruct (counts !! i) as [c|] eqn:Hc; [|done].
    rewrite (cornerFaces_take_S _ _ _ Hc), length_app, length_replicate.
    pose proof (for_range_run
      (fun j u => u.1 = (t.1 + j)%nat /\ (u.1 <= length connects)%nat /\
                  length u.2.1 = length connects /\
                  length u.2.2 = length connects)
      (getFaceVertexList_inner connects i) (Z.to_nat c) 0%nat t t' Hbody)
      as Hin.
    simpl in Hin. destruct Hin as (Hu1 & Hu2 & Hu3 & Hu4).
    + split; [lia | done].
    + intros j u u' _ (Hj1 & Hj2 & Hj3 & Hj4) Hstep.
      apply getFaceVertexList_inner_Some in Hstep as (Hlt & -> & -> & ->).
      split; [lia |]. split; [lia | done].
    + split; [lia | done].
  - done.
Qed.

(** X4.  Bounds of the corner enumeration, for any counts (a face whose
    count is not positive contributes no corner): [getFaceVertexList]
    stays inside its arrays exactly when the faces have no more corners
    in total than the connectivity array has entries; both outputs then
    have the length of the connectivity array, and their first cells hold
    the owning faces and the connectivity entries of the corners. *)
Theorem getFaceVertexList_in_bounds (filler : Z)
  (polyCounts polyConnects faceList0 vertexList0 : list Z) :
  let corners := length (cornerFaces 0 polyCounts) in
  (is_Some (getFaceVertexList filler polyCounts polyConnects faceList0
              vertexList0)
   <-> (corners <= length polyConnects)%nat) /\
  (forall faceList vertexList,
      getFaceVertexList filler polyCounts polyConnects faceList0 vertexList0
        = Some (faceList, vertexList) ->
      length faceList = length polyConnects /\
      length vertexList = length polyConnects /\
      take corners faceList = cornerFaces 0 polyCounts /\
      take corners vertexList = take corners polyConnects).
Proof.
  intros corners. unfold getFaceVertexList.
  set (s0 := (0%nat, (setLength filler (length polyConnects) faceList0,
                      setLength filler (length polyConnects) vertexList0))).
  assert (Hfit : (corners <= length polyConnects)%nat ->
            exists s,
              for_range 0 (length polyCounts)
                (getFaceVertexList_outer polyCounts polyConnects) s0 = Some s
              /\ fvl_outer_inv polyCounts polyConnects (length polyCounts) s).
  { intros Hle.
    apply (for_range_invariant (fvl_outer_inv polyCounts polyConnects)).
    - unfold fvl_outer_inv, s0. simpl. by rewrite !setLength_length.
    - intros i [idx [fl vl]] Hi (Hidx & Hfl & Hvl & Hf & Hv). simpl in *.
      destruct (lookup_lt_is_Some_2 polyCounts i) as [c Hc]; [lia |].
      pose proof (cornerFaces_take_S _ _ _ Hc) as Hstep.
      pose proof (cornerFaces_take_le polyCounts (S i)) as Hle'.
      rewrite Hstep, length_app, length_replicate, <- Hidx in Hle'.
      assert (Hroom : (idx + Z.to_nat c <= length polyConnects)%nat).
      { unfold corners in Hle. lia. }
      destruct (getFaceVertexList_inner_run polyConnects i (Z.to_nat c) idx
                  fl vl Hroom Hfl Hvl Hv)
        as ([idx' [fl' vl']] & Hrun & Hidx' & Hfl' & Hvl' & Hf' & Hv').
      simpl in *. exists (idx', (fl', vl')). split.
      + unfold getFaceVertexList_outer. by rewrite Hc.
      + unfold fvl_outer_inv. simpl.
        rewrite Hstep, length_app, length_replicate, <- Hidx.
        split; [done |]. split; [done |]. split; [done |].
        split; [|done]. rewrite Hf', Hf. reflexivity. }
  assert (Hbound : forall s,
            for_range 0 (length polyCounts)
              (getFaceVertexList_outer polyCounts polyConnects) s0 = Some s ->
            (corners <= length polyConnects)%nat).
  { intros s Hrun.
    destruct (getFaceVertexList_outer_bound polyCounts polyConnects
                (length polyCounts) s0 s Hrun) as [Hidx Hle].
    - done.
    - apply setLength_length.
    - apply setLength_length.
    - rewrite take_ge in Hidx by done. unfold corners. lia. }
  split; [split |].
  - intros [r Hr].
    destruct (for_range 0 (length polyCounts)
                (getFaceVertexList_outer polyCounts polyConnects) s0)
      as [s|] eqn:Hrun; [|done].
    by apply (Hbound s).
  - intros Hle. destruct (Hfit Hle) as ([idx r] & -> & _). by eexists.
  - intros faceList vertexList Hr.
    destruct (for_range 0 (length polyCounts)
                (getFaceVertexList_outer polyCounts polyConnects) s0)
      as [s|] eqn:Hrun; [|done].
    destruct (Hfit (Hbound s eq_refl)) as (s' & Hrun' & Hinv).
    assert (s' = s) by congruence. subst s'.
    destruct s as [idx [fl vl]]. simplify_eq.
    destruct Hinv as (Hidx & Hfl & Hvl & Hf & Hv). simpl in *.
    rewrite take_ge in Hidx by done.
    rewrite (take_ge polyCounts) in Hf by done.
    fold corners in Hidx. subst idx. done.
Qed.

(** *** setFaceVertexLocks, continued *)

(** X5.  [setFaceVertexLocks] reads one lock flag per corner of the mesh
    and never checks the length of [lockedList]: on a mesh with
    well-formed topology it stays inside [lockedList] exactly when the
    list has at least as many entries as the mesh has corners. *)
Theorem setFaceVertexLocks_flag_per_corner (mesh : MObject)
  (lockedList : list Z) (w : World) (status : MStatus)
  (counts connects : list Z) :
  mesh_getVertices (view (store w) mesh) = (status, (counts, connects)) ->
  status_error status = false ->
  Forall (fun c => 0 <= c) counts ->
  Z.of_nat (length connects) = sumCounts counts ->
  (is_Some (setFaceVertexLocks mesh lockedList w)
   <-> (length connects <= length lockedList)%nat).
Proof.
  intros Hmesh Hok Hpos Hsum.
  destruct (getFaceVertexList_run fillInt counts connects [] [] Hpos Hsum)
    as [Hfvl Hfl].
  unfold setFaceVertexLocks, bind, getStore, lift, check.
  rewrite Hmesh, Hok, Hfvl.
  set (n := length connects). fold n in Hfl.
  set (faceList := cornerFaces 0 counts). fold faceList in Hfl.
  split.
  - intros Hsome.
    destruct (for_range 0 n
                (setFaceVertexLocks_body lockedList faceList connects) _)
      as [s|] eqn:Hloop; [|by destruct Hsome].
    destruct (decide (n <= length lockedList)%nat) as [|Hshort]; [done |].
    exfalso.
    destruct (for_range_body_defined _ _ _ _ _ Hloop (length lockedList))
      as (t & t' & Hbody); [lia |].
    unfold setFaceVertexLocks_body in Hbody.
    rewrite (lookup_ge_None_2 lockedList) in Hbody by lia. done.
  - intros Hlen.
    destruct (setFaceVertexLocks_loop lockedList faceList connects n Hfl
                eq_refl Hlen) as (s & -> & _).
    unfold ret, call.
    destruct (decide (ls_UL s = 0%nat)); simpl.
    + rewrite Hok. destruct (decide (ls_L s = 0%nat)); simpl.
      * rewrite Hok. by eexists.
      * destruct (exec _ (store w)) as [st1 sl]. simpl.
        destruct (status_error sl); by eexists.
    + destruct (exec _ (store w)) as [st1 su]. simpl.
      destruct (status_error su); [by eexists |].
      destruct (decide (ls_L s = 0%nat)); simpl.
      * destruct (status_error su); by eexists.
      * destruct (exec _ st1) as [st2 sl]. simpl.
        destruct (status_error sl); by eexists.
Qed.

(** *** The smoothing map *)

Lemma array_get_is_Some {A} (l : list A) (k : Z) :
  is_Some (array_get l k) <-> 0 <= k < Z.of_nat (length l).
Proof.
  unfold array_get. case_decide.
  - rewrite lookup_lt_is_Some. lia.
  - split; [by intros [? ?] | lia].
Qed.

Lemma remappedKey_is_Some (pointOrder : list Z) (e : Edge) :
  is_Some (remappedKey pointOrder e) <-> edge_in_range pointOrder e.
Proof.
  unfold remappedKey, edge_in_range.
  rewrite <- !array_get_is_Some.
  destruct (array_get pointOrder (edge_index0 e)) as [v0|]; simpl.
  - destruct (array_get pointOrder (edge_index1 e)) as [v1|]; simpl.
    + split; [by split; eexists | by eexists].
    + split; [by intros [? ?] | by intros [_ [? ?]]].
  - split; [by intros [? ?] | by intros [[? ?] _]].
Qed.

Lemma getEdgeSmoothing_body_key (pointOrder : list Z) (i : nat) (e : Edge)
  (es : gmap Z bool) :
  getEdgeSmoothing_body pointOrder i e es
  = (fun k => emplace k (edge_isSmooth e) es) <$> remappedKey pointOrder e.
Proof.
  unfold getEdgeSmoothing_body, remappedKey.
  destruct (array_get pointOrder (edge_index0 e)); [|done]. simpl.
  by destruct (array_get pointOrder (edge_index1 e)).
Qed.

Lemma emplace_lookup (k k' : Z) (b : bool) (es : gmap Z bool) :
  emplace k b es !! k'
  = match es !! k' with
    | Some b' => Some b'
    | None => if decide (k = k') then Some b else None
    end.
Proof.
  unfold emplace. destruct (es !! k) as [b0|] eqn:Hk.
  - destruct (es !! k') eqn:Hk'; [done |]. case_decide; [congruence | done].
  - destruct (decide (k = k')) as [<- | Hne].
    + by rewrite lookup_insert_eq, Hk.
    + rewrite lookup_insert_ne by done. by destruct (es !! k').
Qed.

Lemma getEdgeSmoothing_loop (pointOrder : list Z) (edges : list Edge) :
  forall (i : nat) (es : gmap Z bool),
    (is_Some (for_each i edges (getEdgeSmoothing_body pointOrder) es)
     <-> Forall (edge_in_range pointOrder) edges) /\
    (forall es',
        for_each i edges (getEdgeSmoothing_body pointOrder) es = Some es' ->
        forall k, es' !! k
                  = match es !! k with
                    | Some b => Some b
                    | None => firstSmooth pointOrder edges k
                    end).
Proof.
  induction edges as [|e rest IH]; intros i es; simpl.
  - split; [split; [constructor | by eexists] |].
    intros es' ? k. simplify_eq. by destruct (es' !! k).
  - rewrite getEdgeSmoothing_body_key.
    destruct (remappedKey pointOrder e) as [key|] eqn:Hkey; simpl.
    + destruct (IH (S i) (emplace key (edge_isSmooth e) es)) as [Hsome Hmap].
      split.
      * rewrite Hsome, Forall_cons, <- remappedKey_is_Some, Hkey.
        split; [by split; [eexists |] | by intros [_ ?]].
      * intros es' Hrun k. rewrite (Hmap es' Hrun k), emplace_lookup.
        destruct (es !! k); [done |].
        destruct (decide (key = k)) as [<- | Hne].
        -- by rewrite decide_True.
        -- by rewrite decide_False by congruence.
    + split; [|done]. split; [by intros [? ?] |].
      intros [Hin _]%Forall_cons. apply remappedKey_is_Some in Hin.
      rewrite Hkey in Hin. by destruct Hin.
Qed.

(** X6.  [getEdgeSmoothing] stays inside [pointOrder] exactly when both
    endpoints of every edge are indices of it; it then reports success,
    keeps every entry the map already had, and stores each new key with
    the flag of the first edge that produces it ([emplace] never
    overwrites). *)
Theorem getEdgeSmoothing_first_edge_wins (st : Store) (mesh : MObject)
  (pointOrder : list Z) (edgeSmoothing : gmap Z bool) :
  let edges := mesh_edges (view st mesh) in
  (is_Some (getEdgeSmoothing st mesh pointOrder edgeSmoothing)
   <-> Forall (edge_in_range pointOrder) edges) /\
  (forall status es',
      getEdgeSmoothing st mesh pointOrder edgeSmoothing = Some (status, es') ->
      status = kSuccess /\
      forall k, es' !! k
                = match edgeSmoothing !! k with
                  | Some b => Some b
                  | None => firstSmooth pointOrder edges k
                  end).
Proof.
  intros edges. unfold getEdgeSmoothing. fold edges.
  destruct (getEdgeSmoothing_loop pointOrder edges 0%nat edgeSmoothing)
    as [Hsome Hmap].
  destruct (for_each 0 edges (getEdgeSmoothing_body pointOrder) edgeSmoothing)
    as [es|] eqn:Hrun; simpl.
  - split; [rewrite <- Hsome; split; by eexists |].
    intros status es' ?. simplify_eq. split; [done |]. by apply Hmap.
  - split; [|done]. rewrite <- Hsome. split; by intros [? ?].
Qed.

Lemma setEdgeSmoothing_loop_map (mesh : MObject) (edges : list Edge) :
  forall (i : nat) (es es' : gmap Z bool) (w w' : World),
    setEdgeSmoothing_loop mesh i edges es w = Some (es', w') ->
    forall k, es' !! k
              = match es !! k with
                | Some b => Some b
                | None => if decide (k ∈ edgeKey <$> edges)
                          then Some false else None
                end.
Proof.
  induction edges as [|e rest IH]; intros i es es' w w' Hrun k;
    simpl in Hrun.
  - unfold ret in Hrun. simplify_eq. destruct (es' !! k); [done |].
    case_decide as Hin; [|done]. by apply elem_of_nil in Hin.
  - fold (edgeKey e) in Hrun.
    unfold subscript in Hrun. unfold bind, call in Hrun.
    rewrite fmap_cons.
    destruct (es !! edgeKey e) as [b|] eqn:He;
      destruct (exec _ (store w)) as [st1 s1];
      rewrite (IH _ _ _ _ _ Hrun k).
    + destruct (es !! k) eqn:Hk; [done |].
      assert (Hne : k <> edgeKey e) by congruence.
      repeat case_decide; try done; exfalso.
      * match goal with
        | H : k ∈ _ :: _ |- _ => apply elem_of_cons in H as [? | ?]; done
        | H : k ∉ _ :: _ |- _ => apply H, elem_of_cons; by right
        end.
      * match goal with
        | H : k ∈ _ :: _ |- _ => apply elem_of_cons in H as [? | ?]; done
        | H : k ∉ _ :: _ |- _ => apply H, elem_of_cons; by right
        end.
    + destruct (decide (k = edgeKey e)) as [-> | Hne].
      * rewrite lookup_insert_eq, He.
        case_decide as Hin; [done |]. exfalso.
        apply Hin, elem_of_cons. by left.
      * rewrite lookup_insert_ne by done.
        destruct (es !! k); [done |].
        repeat case_decide; try done; exfalso.
        -- match goal with
           | H : k ∈ _ :: _ |- _ => apply elem_of_cons in H as [? | ?]; done
           | H : k ∉ _ :: _ |- _ => apply H, elem_of_cons; by right
           end.
        -- match goal with
           | H : k ∈ _ :: _ |- _ => apply elem_of_cons in H as [? | ?]; done
           | H : k ∉ _ :: _ |- _ => apply H, elem_of_cons; by right
           end.
Qed.

(** X7.  [setEdgeSmoothing] changes the map it is handed only by adding
    keys: an entry that was present keeps its flag, the key of every edge
    of the mesh that was absent is present afterwards with [false], and
    no other key appears. *)
Theorem setEdgeSmoothing_grows_map (mesh : MObject)
  (edgeSmoothing : gmap Z bool) (w : World) (status : MStatus)
  (es' : gmap Z bool) (w' : World) :
  setEdgeSmoothing mesh edgeSmoothing w = Some ((status, es'), w') ->
  forall k,
    es' !! k
    = match edgeSmoothing !! k with
      | Some b => Some b
      | None =>
          if decide (k ∈ edgeKey <$> mesh_edges (view (store w) mesh))
          then Some false else None
      end.
Proof.
  unfold setEdgeSmoothing, bind, getStore, ret. intros Hrun k.
  destruct (setEdgeSmoothing_loop mesh 0 _ edgeSmoothing w)
    as [[es1 w1]|] eqn:Hloop; [|done].
  simplify_eq. by apply (setEdgeSmoothing_loop_map _ _ _ _ _ _ _ Hloop).
Qed.

Lemma firstSmooth_own_edge (pointOrder : list Z) (tEdges oEdges : list Edge) :
  Forall2 (fun e o => remappedKey pointOrder e = Some (edgeKey o))
    tEdges oEdges ->
  NoDup (edgeKey <$> oEdges) ->
  forall (j : nat) (e o : Edge),
    tEdges !! j = Some e -> oEdges !! j = Some o ->
    firstSmooth pointOrder tEdges (edgeKey o) = Some (edge_isSmooth e).
Proof.
  induction 1 as [|e0 o0 tEdges oEdges Hkey _ IH]; intros Hnd j e o He Ho;
    [done |].
  rewrite fmap_cons in Hnd. apply NoDup_cons in Hnd as [Hfresh Hnd].
  destruct j as [|j]; simpl in *.
  - simplify_eq. by rewrite decide_True.
  - rewrite decide_False; [by apply (IH Hnd j) |].
    rewrite Hkey. intros Heq. apply Hfresh.
    assert (edgeKey o0 = edgeKey o) as -> by congruence.
    apply list_elem_of_fmap. exists o. split; [done |].
    by eapply list_elem_of_lookup_2.
Qed.

(** X8.  Transfer of edge smoothing.  Let the map be built by
    [getEdgeSmoothing] from the target mesh, starting empty.  If edge [j]
    of the output mesh has the key of edge [j] of the target after
    renumbering, and the output edges have pairwise different keys, then
    [setEdgeSmoothing] sets every output edge to the flag of the target
    edge it comes from. *)
Theorem edge_smoothing_transfer (targetMesh outMesh : MObject)
  (pointOrder : list Z) (w : World) (status : MStatus)
  (edgeSmoothing : gmap Z bool) :
  let targetEdges := mesh_edges (view (store w) targetMesh) in
  let outEdges := mesh_edges (view (store w) outMesh) in
  getEdgeSmoothing (store w) targetMesh pointOrder ∅
    = Some (status, edgeSmoothing) ->
  Forall2 (fun e o => remappedKey pointOrder e = Some (edgeKey o))
    targetEdges outEdges ->
  NoDup (edgeKey <$> outEdges) ->
  exists (es' : gmap Z bool) (w' : World) (calls : list Call),
    setEdgeSmoothing outMesh edgeSmoothing w = Some ((kSuccess, es'), w') /\
    (log w').*1 = (log w).*1 ++ calls /\
    length calls = length outEdges /\
    forall (j : nat) (e : Edge),
      targetEdges !! j = Some e ->
      calls !! j = Some (ItSetSmoothing outMesh j (edge_isSmooth e)).
Proof.
  intros targetEdges outEdges Hget Hedges Hnd.
  unfold getEdgeSmoothing in Hget. fold targetEdges in Hget.
  destruct (for_each 0 targetEdges (getEdgeSmoothing_body pointOrder) ∅)
    as [es|] eqn:Hbuild; [|done].
  simpl in Hget. simplify_eq.
  destruct (getEdgeSmoothing_loop pointOrder targetEdges 0%nat ∅)
    as [_ Hmap].
  specialize (Hmap _ Hbuild).
  destruct (setEdgeSmoothing_loop_calls outMesh edgeSmoothing outEdges 0%nat
              edgeSmoothing w) as (es' & w' & Hrun & Hlog & _); [done |].
  exists es', w', (expectedSmoothing outMesh 0 outEdges edgeSmoothing).
  split; [|split; [done | split; [apply expectedSmoothing_length |]]].
  - unfold setEdgeSmoothing, bind, getStore. fold outEdges. by rewrite Hrun.
  - intros j e He.
    destruct (Forall2_lookup_l _ _ _ _ _ Hedges He) as (o & Ho & _).
    rewrite (expectedSmoothing_lookup outMesh edgeSmoothing outEdges 0%nat
               j o Ho).
    fold (edgeKey o). rewrite Hmap, lookup_empty.
    by rewrite (firstSmooth_own_edge _ _ _ Hedges Hnd j e o He Ho).
Qed.

(** *** setFaceVertexNormals *)

(** X9.  [setFaceVertexNormals] on a well-formed topology: normal [i] is
    assigned to corner [i], named by its owning face and its
    connectivity entry; if the assignment fails nothing else is called
    and its status is returned; otherwise every corner is unlocked, and
    the status of the unlock call decides the result. *)
Theorem setFaceVertexNormals_calls (mesh : MObject)
  (polyCounts polyConnects : list Z) (vertexNormals : list Vector)
  (w : World) :
  Forall (fun c => 0 <= c) polyCounts ->
  Z.of_nat (length polyConnects) = sumCounts polyCounts ->
  let assign := FnSetFaceVertexNormals mesh vertexNormals
                  (cornerFaces 0 polyCounts) polyConnects in
  let unlock := FnUnlockFaceVertexNormals mesh
                  (cornerFaces 0 polyCounts) polyConnects in
  exists (status : MStatus) (w' : World) (s1 : MStatus),
    setFaceVertexNormals mesh polyCounts polyConnects vertexNormals w
      = Some (status, w') /\
    ((status_error s1 = true /\ status = s1 /\
      log w' = log w ++ [(assign, s1)]) \/
     (status_error s1 = false /\
      exists s2, log w' = log w ++ [(assign, s1); (unlock, s2)] /\
                 status = if status_error s2 then s2 else kSuccess)).
Proof.
  intros Hpos Hsum assign unlock.
  destruct (getFaceVertexList_run fillInt polyCounts polyConnects [] []
              Hpos Hsum) as [Hfvl _].
  unfold setFaceVertexNormals, bind, lift, call, check, ret.
  rewrite Hfvl. fold assign unlock.
  destruct (exec assign (store w)) as [st1 s1] eqn:H1. simpl.
  destruct (status_error s1) eqn:E1.
  - eexists _, _, s1. split; [done |]. left. done.
  - simpl. destruct (exec unlock st1) as [st2 s2] eqn:H2. simpl.
    exists (if status_error s2 then s2 else kSuccess),
      (mkWorld st2 ((log w ++ [(assign, s1)]) ++ [(unlock, s2)])), s1.
    split; [by destruct (status_error s2) |]. right. split; [done |].
    exists s2. split; [by rewrite <- app_assoc | done].
Qed.

(** *** Building the mesh *)

Lemma reorderMesh_cast_loop (points : list Point) (numVertices : nat) :
  (numVertices <= length points)%nat ->
  for_range 0 numVertices (reorderMesh_cast points)
    (replicate numVertices floatOrigin)
  = Some (setCast <$> take numVertices points).
Proof.
  intros Hlen.
  destruct (for_range_invariant
    (fun j fp => length fp = numVertices /\
                 take j fp = setCast <$> take j points)
    (reorderMesh_cast points) numVertices 0%nat
    (replicate numVertices floatOrigin)) as (fp & Hrun & Hfp & Hall).
  - split; [apply length_replicate | done].
  - intros j fp Hj [Hfp Hpre].
    destruct (lookup_lt_is_Some_2 points j) as [p Hp]; [lia |].
    exists (<[j := setCast p]> fp). split.
    + unfold reorderMesh_cast. rewrite Hp. simpl.
      apply array_put_Some. split; [lia | done].
    + split; [by rewrite length_insert |].
      rewrite (take_put_snoc fp _ j (setCast p) ltac:(lia) Hpre).
      by rewrite (take_S_r _ _ _ Hp), fmap_app.
  - rewrite Hrun. f_equal. simpl in Hall. rewrite <- Hall.
    symmetry. apply take_ge. lia.
Qed.

(** X10.  Building in place ([isMeshData] false): the step stays inside
    [points] exactly when it holds at least [numVertices] points; it
    passes the first [numVertices] points, cast to float, to
    [createInPlace], and it reports success whatever [createInPlace]
    answers, because that answer is not stored. *)
Theorem reorderMesh_build_in_place (outMesh : MObject)
  (numVertices numPolys : nat) (points : list Point)
  (polyCounts polyConnects : list Z) (w : World) :
  (is_Some (reorderMesh_build outMesh false numVertices numPolys points
              polyCounts polyConnects w)
   <-> (numVertices <= length points)%nat) /\
  (forall status w',
      reorderMesh_build outMesh false numVertices numPolys points polyCounts
        polyConnects w = Some (status, w') ->
      status = kSuccess /\
      exists s,
        log w' = log w ++ [(FnCreateInPlace outMesh numVertices numPolys
                              (setCast <$> take numVertices points)
                              polyCounts polyConnects, s)]).
Proof.
  unfold reorderMesh_build, bind, lift, call, ret.
  destruct (decide (numVertices <= length points)%nat) as [Hlen | Hshort].
  - rewrite (reorderMesh_cast_loop points numVertices Hlen).
    destruct (exec _ (store w)) as [st1 s] eqn:Hexec.
    split; [split; [done | by eexists] |].
    intros status w' ?. simplify_eq. split; [done |]. by exists s.
  - destruct (for_range 0 numVertices (reorderMesh_cast points)
                (replicate numVertices floatOrigin)) as [fp|] eqn:Hloop.
    + exfalso.
      destruct (for_range_body_defined _ _ _ _ _ Hloop (length points))
        as (t & t' & Hbody); [lia |].
      unfold reorderMesh_cast in Hbody.
      rewrite (lookup_ge_None_2 points) in Hbody by lia. done.
    + split; [split; [by intros [? ?] | lia] | done].
Qed.

(** *** getUVs *)

Lemma getUVs_names_loop (uvSetNames : list string) (uvSets0 : list UVSetData) :
  (length uvSets0 <= length uvSetNames)%nat ->
  exists uvSets,
    for_range 0 (length uvSets0) (getUVs_names uvSetNames) uvSets0
      = Some uvSets /\
    length uvSets = length uvSets0 /\
    forall i : nat, (i < length uvSets0)%nat ->
                    name <$> uvSets !! i = uvSetNames !! i.
Proof.
  intros Hlen.
  destruct (for_range_invariant
    (fun j l => length l = length uvSets0 /\
                forall i : nat, (i < j)%nat ->
                                name <$> l !! i = uvSetNames !! i)
    (getUVs_names uvSetNames) (length uvSets0) 0%nat uvSets0)
    as (l & Hrun & Hl & Hall).
  - split; [done | intros; lia].
  - intros j l Hj [Hl Hprev].
    destruct (lookup_lt_is_Some_2 l j) as [uv Huv]; [lia |].
    destruct (lookup_lt_is_Some_2 uvSetNames j) as [n Hn]; [lia |].
    eexists. split.
    + unfold getUVs_names. rewrite Huv. simpl. rewrite Hn. simpl. done.
    + split; [by rewrite length_insert |].
      intros i Hi. destruct (decide (i = j)) as [-> | Hne].
      * rewrite list_lookup_insert_eq by lia. by rewrite Hn.
      * rewrite list_lookup_insert_ne by done. apply Hprev. lia.
  - by exists l.
Qed.

Lemma getUVs_loop_sets (m : MeshData) (uvSets : list UVSetData) :
  forall status uvSets',
    getUVs_loop m uvSets = (status, uvSets') ->
    length uvSets' = length uvSets /\
    (forall i : nat, name <$> uvSets' !! i = name <$> uvSets !! i) /\
    (status_error status = false ->
     Forall (fun uv =>
               (mesh_getUVs m (name uv)).2 = (uArray uv, vArray uv) /\
               (mesh_getAssignedUVs m (name uv)).2 = (uvCounts uv, uvIds uv))
       uvSets').
Proof.
  induction uvSets as [|uv rest IH]; intros status uvSets' Hrun;
    simpl in Hrun.
  - simplify_eq. split; [done |]. split; [done |]. constructor.
  - destruct (mesh_getUVs m (name uv)) as [s1 [u v]] eqn:H1.
    destruct (status_error s1) eqn:E1.
    { simplify_eq. split; [done |].
      split; [by intros [|i] |]. congruence. }
    simpl in Hrun.
    destruct (mesh_getAssignedUVs m (name uv)) as [s2 [c ids]] eqn:H2.
    destruct (status_error s2) eqn:E2.
    { simplify_eq. split; [done |].
      split; [by intros [|i] |]. congruence. }
    simpl in Hrun.
    destruct (getUVs_loop m rest) as [s3 rest'] eqn:H3.
    destruct (IH s3 rest' eq_refl) as (Hlen & Hnames & Hok).
    simplify_eq. split; [simpl; by rewrite Hlen |].
    split; [intros [|i]; [done | apply Hnames] |].
    intros Hs. constructor; [|by apply Hok].
    simpl. by rewrite H1, H2.
Qed.

(** X11.  [getUVs] stays inside the array of set names exactly when the
    mesh reports no more UV sets than names; it returns one entry per
    reported set, named in the order of the names, and when it reports
    success every entry holds the coordinate and assignment arrays that
    the store returned for its name. *)
Theorem getUVs_one_entry_per_set (st : Store) (mesh : MObject)
  (uvSets0 : list UVSetData) :
  let m := view st mesh in
  (is_Some (getUVs st mesh uvSets0)
   <-> (mesh_numUVSets m <= length (mesh_getUVSetNames m))%nat) /\
  (forall status uvSets,
      getUVs st mesh uvSets0 = Some (status, uvSets) ->
      length uvSets = mesh_numUVSets m /\
      (forall i : nat, (i < mesh_numUVSets m)%nat ->
                       name <$> uvSets !! i = mesh_getUVSetNames m !! i) /\
      (status_error status = false ->
       Forall (fun uv =>
                 (mesh_getUVs m (name uv)).2 = (uArray uv, vArray uv) /\
                 (mesh_getAssignedUVs m (name uv)).2
                 = (uvCounts uv, uvIds uv))
         uvSets)).
Proof.
  intros m. unfold getUVs. fold m.
  set (n := mesh_numUVSets m). set (names := mesh_getUVSetNames m).
  set (l0 := resize n emptyUVSetData uvSets0).
  assert (Hl0 : length l0 = n) by apply length_resize.
  destruct (decide (n <= length names)%nat) as [Hlen | Hshort].
  - destruct (getUVs_names_loop names l0) as (l & Hrun & Hl & Hnames);
      [lia |].
    rewrite Hl0 in Hrun, Hl, Hnames. rewrite Hrun. simpl.
    split; [split; [done | by eexists] |].
    intros status uvSets ?. simplify_eq.
    destruct (getUVs_loop m l) as [s l'] eqn:Hloop.
    destruct (getUVs_loop_sets m l s l' Hloop) as (Hlen' & Hn' & Hok).
    simplify_eq. split; [congruence |]. split; [|done].
    intros i Hi. rewrite Hn'. by apply Hnames.
  - destruct (for_range 0 n (getUVs_names names) l0) as [l|] eqn:Hloop.
    + exfalso.
      destruct (for_range_body_defined _ _ _ _ _ Hloop (length names))
        as (t & t' & Hbody); [lia |].
      unfold getUVs_names in Hbody.
      destruct (t !! length names); [|done]. simpl in Hbody.
      rewrite (lookup_ge_None_2 names) in Hbody by lia. done.
    + simpl. split; [split; [by intros [? ?] | lia] | done].
Qed.

(** *** reorderMesh *)

Lemma reorderMesh_cast_loop_Some (points : list Point) (numVertices : nat)
  (fp : list FloatPoint) :
  for_range 0 numVertices (reorderMesh_cast points)
    (replicate numVertices floatOrigin) = Some fp ->
  fp = setCast <$> take numVertices points.
Proof.
  intros Hloop.
  destruct (decide (numVertices <= length points)%nat) as [Hlen | Hshort].
  - rewrite (reorderMesh_cast_loop points numVertices Hlen) in Hloop.
    congruence.
  - exfalso.
    destruct (for_range_body_defined _ _ _ _ _ Hloop (length points))
      as (t & t' & Hbody); [lia |].
    unfold reorderMesh_cast in Hbody.
    rewrite (lookup_ge_None_2 points) in Hbody by lia. done.
Qed.

(** X12.  Whenever [reorderMesh] returns, the first call it has issued
    is the one that builds the output mesh, from the vertex and face
    numbers of the source mesh, the points [getPoints] produced from the
    target and the topology [getPolys] produced from the source: nothing
    is written to the output before every extraction step is through. *)
Theorem reorderMesh_builds_first (sourceMesh targetMesh : MObject)
  (pointOrder : list Z) (outMesh : MObject) (isMeshData : bool)
  (w : World) (status : MStatus) (w' : World) :
  reorderMesh sourceMesh targetMesh pointOrder outMesh isMeshData w
    = Some (status, w') ->
  let numVertices := mesh_numVertices (view (store w) sourceMesh) in
  let numPolys := mesh_numPolygons (view (store w) sourceMesh) in
  exists s1 points s2 polyCounts polyConnects s rest,
    getPoints (store w) targetMesh pointOrder [] = Some (s1, points) /\
    getPolys (store w) sourceMesh pointOrder isMeshData
      = Some (s2, (polyCounts, polyConnects)) /\
    log w' =
      log w
      ++ ((if isMeshData
           then FnCreate numVertices numPolys points polyCounts polyConnects
                  outMesh
           else FnCreateInPlace outMesh numVertices numPolys
                  (setCast <$> take numVertices points) polyCounts
                  polyConnects), s)
         :: rest.
Proof.
  intros Hrun numVertices numPolys.
  unfold reorderMesh, bind, getStore, lift in Hrun.
  destruct (getPoints (store w) targetMesh pointOrder [])
    as [[s1 points]|]; [|done].
  destruct (getPolys (store w) sourceMesh pointOrder isMeshData)
    as [[s2 [polyCounts polyConnects]]|]; [|done].
  destruct (getFaceVertexNormals (store w) targetMesh _)
    as [[s3 normals]|]; [|done].
  unfold reorderMesh_rest, bind, getStore, lift in Hrun. simpl in Hrun.
  destruct (getFaceVertexLocks (store w) targetMesh [])
    as [[s4 locks]|]; [|done].
  destruct (getEdgeSmoothing (store w) targetMesh pointOrder ∅)
    as [[s5 es]|]; [|done].
  destruct (getUVs (store w) targetMesh []) as [[s6 uvs]|]; [|done].
  fold numVertices numPolys in Hrun.
  exists s1, points, s2, polyCounts, polyConnects.
  assert (Happly : forall w1 st wf,
             reorderMesh_apply outMesh uvs polyCounts polyConnects normals
               locks es w1 = Some (st, wf) ->
             exists evs, log wf = log w1 ++ evs).
  { intros w1 st wf Hap.
    destruct (reorderMesh_apply_propagates _ _ _ _ _ _ _ _ _ _ Hap)
      as (evs & Hlog & _). by exists evs. }
  unfold reorderMesh_build in Hrun. destruct isMeshData.
  - unfold call, check, ret in Hrun.
    destruct (exec _ (store w)) as [st1 s] eqn:Hexec.
    destruct (status_error s).
    + injection Hrun as <- <-. by exists s, [].
    + destruct (Happly _ _ _ Hrun) as (evs & Hlog).
      exists s, evs. split; [done |]. split; [done |].
      rewrite Hlog. simpl. by rewrite <- app_assoc.
  - unfold bind, lift in Hrun.
    destruct (for_range 0 numVertices (reorderMesh_cast points) _)
      as [fp|] eqn:Hcast; [|done].
    apply reorderMesh_cast_loop_Some in Hcast. subst fp.
    unfold call, check, ret in Hrun.
    destruct (exec _ (store w)) as [st1 s] eqn:Hexec. simpl in Hrun.
    destruct (Happly _ _ _ Hrun) as (evs & Hlog).
    exists s, evs. split; [done |]. split; [done |].
    rewrite Hlog. simpl. by rewrite <- app_assoc.
Qed.

(** *** What the calls are issued against *)

Lemma issues_only_ret {A} (P : Call -> Prop) (a : A) : issues_only P (ret a).
Proof.
  intros w a' w' H. unfold ret in H. simplify_eq.
  exists []. by rewrite app_nil_r.
Qed.

Lemma issues_only_getStore (P : Call -> Prop) : issues_only P getStore.
Proof.
  intros w a' w' H. unfold getStore in H. simplify_eq.
  exists []. by rewrite app_nil_r.
Qed.

Lemma issues_only_lift {A} (P : Call -> Prop) (o : option A) :
  issues_only P (lift o).
Proof.
  intros w a' w' H. unfold lift in H. destruct o; simplify_eq.
  exists []. by rewrite app_nil_r.
Qed.

Lemma issues_only_call (P : Call -> Prop) (c : Call) :
  P c -> issues_only P (call c).
Proof.
  intros Hc w s w' H. unfold call in H.
  destruct (exec c (store w)) as [st1 s1]. simplify_eq. simpl.
  exists [(c, s)]. split; [done |]. by repeat constructor.
Qed.

Lemma issues_only_bind {A B} (P : Call -> Prop) (m : M A) (k : A -> M B) :
  issues_only P m -> (forall a, issues_only P (k a)) ->
  issues_only P (bind m k).
Proof.
  intros Hm Hk w b w' H. unfold bind in H.
  destruct (m w) as [[a w1]|] eqn:Hmw; [|done].
  destruct (Hm _ _ _ Hmw) as (evs1 & Hlog1 & Hq1).
  destruct (Hk a _ _ _ H) as (evs2 & Hlog2 & Hq2).
  exists (evs1 ++ evs2). split.
  - by rewrite Hlog2, Hlog1, app_assoc.
  - by apply Forall_app.
Qed.

Lemma issues_only_check (P : Call -> Prop) (s : MStatus) (k : M MStatus) :
  issues_only P k -> issues_only P (check s k).
Proof.
  intros Hk. unfold check. destruct (status_error s); [|done].
  apply issues_only_ret.
Qed.

Lemma setUVs_issues (P : Call -> Prop) (mesh : MObject)
  (uvSets : list UVSetData) :
  (forall c, callTarget c = mesh -> checked c = false -> P c) ->
  (forall uvSet, P (FnClearUVs mesh uvSet)) ->
  (forall u v uvSet, P (FnSetUVs mesh u v uvSet)) ->
  (forall c ids uvSet, P (FnAssignUVs mesh c ids uvSet)) ->
  issues_only P (setUVs mesh uvSets).
Proof.
  intros Hcreate Hclear Hset Hassign. unfold setUVs.
  induction uvSets as [|uv rest IH]; simpl.
  - apply issues_only_ret.
  - apply issues_only_bind.
    + case_decide; [|apply issues_only_ret].
      apply issues_only_bind; [apply issues_only_getStore |]. intros st.
      apply issues_only_bind; [|intros; apply issues_only_ret].
      apply issues_only_call. by apply Hcreate.
    + intros n.
      apply issues_only_bind; [by apply issues_only_call |]. intros s1.
      apply issues_only_check.
      apply issues_only_bind; [by apply issues_only_call |]. intros s2.
      apply issues_only_check.
      apply issues_only_bind; [by apply issues_only_call |]. intros s3.
      by apply issues_only_check.
Qed.

Lemma setFaceVertexNormals_issues (P : Call -> Prop) (mesh : MObject)
  (polyCounts polyConnects : list Z) (vertexNormals : list Vector) :
  (forall fl vl,
      getFaceVertexList fillInt polyCounts polyConnects [] [] = Some (fl, vl) ->
      P (FnSetFaceVertexNormals mesh vertexNormals fl vl)) ->
  (forall fl vl, P (FnUnlockFaceVertexNormals mesh fl vl)) ->
  issues_only P (setFaceVertexNormals mesh polyCounts polyConnects
                   vertexNormals).
Proof.
  intros Hset Hunlock w a w' Hrun.
  unfold setFaceVertexNormals in Hrun. unfold bind at 1 in Hrun.
  unfold lift in Hrun.
  destruct (getFaceVertexList fillInt polyCounts polyConnects [] [])
    as [[fl vl]|] eqn:Hfvl; [|done].
  revert Hrun. apply issues_only_bind.
  - apply issues_only_call. by apply Hset.
  - intros s1. apply issues_only_check.
    apply issues_only_bind; [by apply issues_only_call |]. intros s2.
    apply issues_only_check, issues_only_ret.
Qed.

Lemma setFaceVertexLocks_issues (P : Call -> Prop) (mesh : MObject)
  (lockedList : list Z) :
  (forall fl vl, P (FnUnlockFaceVertexNormals mesh fl vl)) ->
  (forall fl vl, P (FnLockFaceVertexNormals mesh fl vl)) ->
  issues_only P (setFaceVertexLocks mesh lockedList).
Proof.
  intros Hunlock Hlock. unfold setFaceVertexLocks.
  apply issues_only_bind; [apply issues_only_getStore |]. intros st.
  destruct (mesh_getVertices (view st mesh)) as [status [counts connects]].
  apply issues_only_check.
  apply issues_only_bind; [apply issues_only_lift |]. intros [fl vl].
  apply issues_only_bind; [apply issues_only_lift |]. intros s.
  apply issues_only_bind.
  { case_decide; [apply issues_only_ret | by apply issues_only_call]. }
  intros s1. apply issues_only_check.
  apply issues_only_bind.
  { case_decide; [apply issues_only_ret | by apply issues_only_call]. }
  intros s2. apply issues_only_check, issues_only_ret.
Qed.

Lemma setEdgeSmoothing_issues (P : Call -> Prop) (mesh : MObject)
  (edgeSmoothing : gmap Z bool) :
  (forall c, callTarget c = mesh -> checked c = false -> P c) ->
  issues_only P (setEdgeSmoothing mesh edgeSmoothing).
Proof.
  intros Hsmooth. unfold setEdgeSmoothing.
  apply issues_only_bind; [apply issues_only_getStore |]. intros st.
  apply issues_only_bind; [|intros; apply issues_only_ret].
  generalize 0%nat. revert edgeSmoothing.
  induction (mesh_edges (view st mesh)) as [|e rest IH]; intros es i; simpl.
  - apply issues_only_ret.
  - destruct (subscript es _) as [smooth es1].
    apply issues_only_bind; [|intros _; apply IH].
    apply issues_only_call. by apply Hsmooth.
Qed.

Lemma reorderMesh_build_issues (P : Call -> Prop) (outMesh : MObject)
  (isMeshData : bool) (numVertices numPolys : nat) (points : list Point)
  (polyCounts polyConnects : list Z) :
  (forall c, callTarget c = outMesh ->
             (checked c = false \/
              c = FnCreate numVertices numPolys points polyCounts polyConnects
                    outMesh) -> P c) ->
  issues_only P (reorderMesh_build outMesh isMeshData numVertices numPolys
                   points polyCounts polyConnects).
Proof.
  intros Hbuild. unfold reorderMesh_build. destruct isMeshData.
  - apply issues_only_call. apply Hbuild; [done | by right].
  - apply issues_only_bind; [apply issues_only_lift |]. intros fp.
    apply issues_only_bind; [|intros; apply issues_only_ret].
    apply issues_only_call. apply Hbuild; [done | by left].
Qed.

(** The extraction steps issue no call: what [reorderMesh] issues is
    what the build and the application steps issue, on the data the
    extraction produced. *)
Lemma reorderMesh_issues (P : Call -> Prop) (sourceMesh targetMesh : MObject)
  (pointOrder : list Z) (outMesh : MObject) (isMeshData : bool) (w : World) :
  (forall s1 points s2 counts connects s3 normals uvSets lockedList es,
      getPoints (store w) targetMesh pointOrder [] = Some (s1, points) ->
      getPolys (store w) sourceMesh pointOrder isMeshData
        = Some (s2, (counts, connects)) ->
      getFaceVertexNormals (store w) targetMesh
        (setLength fillVector (length connects) []) = Some (s3, normals) ->
      issues_only P
        (reorderMesh_build outMesh isMeshData
           (mesh_numVertices (view (store w) sourceMesh))
           (mesh_numPolygons (view (store w) sourceMesh))
           points counts connects) /\
      issues_only P
        (reorderMesh_apply outMesh uvSets counts connects normals lockedList
           es)) ->
  forall status w',
    reorderMesh sourceMesh targetMesh pointOrder outMesh isMeshData w
      = Some (status, w') ->
    exists evs, log w' = log w ++ evs /\ Forall (fun e => P e.1) evs.
Proof.
  intros Hsteps status w' Hrun.
  unfold reorderMesh, bind, getStore, lift in Hrun.
  destruct (getPoints (store w) targetMesh pointOrder [])
    as [[s1 points]|] eqn:Hpoints; [|done].
  destruct (getPolys (store w) sourceMesh pointOrder isMeshData)
    as [[s2 [counts connects]]|] eqn:Hpolys; [|done].
  destruct (getFaceVertexNormals (store w) targetMesh _)
    as [[s3 normals]|] eqn:Hnormals; [|done].
  unfold reorderMesh_rest in Hrun. unfold bind at 1 in Hrun.
  unfold getStore in Hrun. simpl in Hrun.
  unfold bind at 1 in Hrun. unfold lift at 1 in Hrun.
  destruct (getFaceVertexLocks (store w) targetMesh [])
    as [[s4 locks]|]; [|done].
  unfold bind at 1 in Hrun. unfold lift at 1 in Hrun.
  destruct (getEdgeSmoothing (store w) targetMesh pointOrder ∅)
    as [[s5 es]|]; [|done].
  unfold bind at 1 in Hrun. unfold lift at 1 in Hrun.
  destruct (getUVs (store w) targetMesh []) as [[s6 uvs]|]; [|done].
  destruct (Hsteps s1 points s2 counts connects s3 normals uvs locks es
              eq_refl eq_refl Hnormals) as [Hbuild Happly].
  revert Hrun. apply issues_only_bind; [done |].
  intros s. by apply issues_only_check.
Qed.

Lemma reorderMesh_targets_outMesh (sourceMesh targetMesh : MObject)
  (pointOrder : list Z) (outMesh : MObject) (isMeshData : bool)
  (w : World) (status : MStatus) (w' : World) :
  reorderMesh sourceMesh targetMesh pointOrder outMesh isMeshData w
    = Some (status, w') ->
  exists evs,
    log w' = log w ++ evs /\
    Forall (fun e => callTarget e.1 = outMesh) evs.
Proof.
  apply (reorderMesh_issues (fun c => callTarget c = outMesh)).
  intros s1 points s2 counts connects s3 normals uvSets lockedList es _ _ _.
  split.
  - by apply reorderMesh_build_issues.
  - unfold reorderMesh_apply.
    apply issues_only_bind; [by apply setUVs_issues |]. intros st1.
    apply issues_only_check.
    apply issues_only_bind; [by apply setFaceVertexNormals_issues |].
    intros st2. apply issues_only_check.
    apply issues_only_bind; [by apply setFaceVertexLocks_issues |].
    intros st3. apply issues_only_check.
    apply issues_only_bind; [by apply setEdgeSmoothing_issues |].
    intros [st4 es']. apply issues_only_check, issues_only_ret.
Qed.

(** X13.  [reorderMesh] writes to the output mesh only: every mutating
    call it issues is issued against [outMesh].  Hence, when [outMesh] is
    another object than the source mesh, no call is issued against the
    source mesh, and likewise for the target mesh. *)
Theorem reorderMesh_writes_output_only (sourceMesh targetMesh : MObject)
  (pointOrder : list Z) (outMesh : MObject) (isMeshData : bool)
  (w : World) (status : MStatus) (w' : World) :
  reorderMesh sourceMesh targetMesh pointOrder outMesh isMeshData w
    = Some (status, w') ->
  exists evs,
    log w' = log w ++ evs /\
    Forall (fun e => callTarget e.1 = outMesh) evs /\
    (outMesh <> sourceMesh ->
     Forall (fun e => callTarget e.1 <> sourceMesh) evs) /\
    (outMesh <> targetMesh ->
     Forall (fun e => callTarget e.1 <> targetMesh) evs).
Proof.
  intros Hrun.
  destruct (reorderMesh_targets_outMesh _ _ _ _ _ _ _ _ Hrun)
    as (evs & Hlog & Hall).
  exists evs. split; [exact Hlog |]. split; [exact Hall |].
  split; intros Hother; eapply Forall_impl; try exact Hall;
    intros e He; simpl in He; congruence.
Qed.

(** A run of [setFaceVertexNormals] that reports no error has issued
    the assignment, first, and the store accepted it. *)
Lemma setFaceVertexNormals_assigns (mesh : MObject)
  (polyCounts polyConnects : list Z) (vertexNormals : list Vector)
  (w : World) (status : MStatus) (w' : World) :
  Forall (fun c => 0 <= c) polyCounts ->
  Z.of_nat (length polyConnects) = sumCounts polyCounts ->
  setFaceVertexNormals mesh polyCounts polyConnects vertexNormals w
    = Some (status, w') ->
  status_error status = false ->
  exists s post,
    log w' =
      log w
      ++ (FnSetFaceVertexNormals mesh vertexNormals
            (cornerFaces 0 polyCounts) polyConnects, s) :: post /\
    status_error s = false.
Proof.
  intros Hpos Hsum Hrun Hok.
  destruct (getFaceVertexList_run fillInt polyCounts polyConnects [] [] Hpos
              Hsum) as [Hfvl _].
  unfold setFaceVertexNormals in Hrun. unfold bind at 1 in Hrun.
  unfold lift in Hrun. rewrite Hfvl in Hrun.
  unfold bind at 1 in Hrun. unfold call at 1 in Hrun.
  destruct (exec (FnSetFaceVertexNormals mesh vertexNormals
                    (cornerFaces 0 polyCounts) polyConnects) (store w))
    as [st1 s] eqn:Hexec.
  unfold check at 1 in Hrun. destruct (status_error s) eqn:Hs.
  { unfold ret in Hrun. simplify_eq. congruence. }
  unfold bind, call, check, ret in Hrun. simpl in Hrun.
  destruct (exec (FnUnlockFaceVertexNormals mesh (cornerFaces 0 polyCounts)
                    polyConnects) st1) as [st2 s'].
  exists s.
  destruct (status_error s'); simplify_eq; simpl;
    eexists; (split; [|done]); rewrite <- app_assoc; reflexivity.
Qed.

(** A run of the application steps that reports no error has issued the
    assignment of the normals. *)
Lemma reorderMesh_apply_assigns (outMesh : MObject)
  (uvSets : list UVSetData) (polyCounts polyConnects : list Z)
  (vertexNormals : list Vector) (lockedList : list Z)
  (edgeSmoothing : gmap Z bool) (w : World) (status : MStatus)
  (w' : World) :
  Forall (fun c => 0 <= c) polyCounts ->
  Z.of_nat (length polyConnects) = sumCounts polyCounts ->
  reorderMesh_apply outMesh uvSets polyCounts polyConnects vertexNormals
    lockedList edgeSmoothing w = Some (status, w') ->
  status_error status = false ->
  exists pre s post,
    log w' =
      log w
      ++ pre
      ++ (FnSetFaceVertexNormals outMesh vertexNormals
            (cornerFaces 0 polyCounts) polyConnects, s) :: post /\
    status_error s = false.
Proof.
  intros Hpos Hsum Hrun Hok.
  unfold reorderMesh_apply in Hrun. unfold bind at 1 in Hrun.
  destruct (setUVs outMesh uvSets w) as [[su wu]|] eqn:Huvs; [|done].
  destruct (setUVs_propagates _ _ _ _ _ Huvs) as (pre & Hpre & _).
  unfold check at 1 in Hrun. destruct (status_error su) eqn:Hsu.
  { unfold ret in Hrun. simplify_eq. congruence. }
  unfold bind at 1 in Hrun.
  destruct (setFaceVertexNormals outMesh polyCounts polyConnects
              vertexNormals wu) as [[sn wn]|] eqn:Hnormals; [|done].
  unfold check at 1 in Hrun. destruct (status_error sn) eqn:Hsn.
  { unfold ret in Hrun. simplify_eq. congruence. }
  destruct (setFaceVertexNormals_assigns _ _ _ _ _ _ _ Hpos Hsum Hnormals Hsn)
    as (s & post1 & Hlog1 & Hs).
  assert (Htail : issues_only (fun _ => True)
            (bind (setFaceVertexLocks outMesh lockedList)
               (fun status =>
                  check status
                    (bind (setEdgeSmoothing outMesh edgeSmoothing)
                       (fun '(status, _) => check status (ret kSuccess)))))).
  { apply issues_only_bind; [by apply setFaceVertexLocks_issues |].
    intros st3. apply issues_only_check.
    apply issues_only_bind; [by apply setEdgeSmoothing_issues |].
    intros [st4 es']. apply issues_only_check, issues_only_ret. }
  destruct (Htail _ _ _ Hrun) as (post2 & Hlog2 & _).
  exists pre, s, (post1 ++ post2). split; [|done].
  rewrite Hlog2, Hlog1, Hpre. by rewrite <- !app_assoc.
Qed.

Lemma reorderMesh_normals_only (sourceMesh targetMesh : MObject)
  (pointOrder : list Z) (outMesh : MObject) (isMeshData : bool)
  (w : World) (status : MStatus) (w' : World) (s2 : MStatus)
  (counts connects : list Z) :
  let normals := concat (mesh_polygons (view (store w) targetMesh)) in
  reorderMesh sourceMesh targetMesh pointOrder outMesh isMeshData w
    = Some (status, w') ->
  getPolys (store w) sourceMesh pointOrder isMeshData
    = Some (s2, (counts, connects)) ->
  length normals = length connects ->
  Forall (fun c => 0 <= c) counts ->
  Z.of_nat (length connects) = sumCounts counts ->
  exists evs,
    log w' = log w ++ evs /\
    Forall (fun e => assigns_normals normals counts connects e.1) evs.
Proof.
  intros normals Hrun Hpolys Hcorners Hpos Hsum. revert Hrun.
  apply (reorderMesh_issues (assigns_normals normals counts connects)).
  intros s1 points s2' counts' connects' s3 normals' uvSets lockedList es
    _ Hpolys' Hnormals.
  rewrite Hpolys in Hpolys'. simplify_eq.
  rewrite getFaceVertexNormals_run in Hnormals. fold normals in Hnormals.
  unfold setLength in Hnormals.
  rewrite resize_nil, length_replicate, decide_True in Hnormals by lia.
  rewrite drop_replicate, Hcorners, Nat.sub_diag, app_nil_r in Hnormals.
  simplify_eq.
  split.
  - apply reorderMesh_build_issues. intros c _ [Hc | ->]; [|done].
    by destruct c.
  - unfold reorderMesh_apply.
    apply issues_only_bind; [apply setUVs_issues; try done |].
    { intros c _ Hc. by destruct c. }
    intros st1. apply issues_only_check.
    apply issues_only_bind.
    { apply setFaceVertexNormals_issues; [|done].
      intros fl vl Hfvl.
      destruct (getFaceVertexList_run fillInt counts' connects' [] [] Hpos
                  Hsum) as [Hrun _].
      rewrite Hrun in Hfvl. by simplify_eq. }
    intros st2. apply issues_only_check.
    apply issues_only_bind; [by apply setFaceVertexLocks_issues |].
    intros st3. apply issues_only_check.
    apply issues_only_bind.
    { apply setEdgeSmoothing_issues. intros c _ Hc. by destruct c. }
    intros [st4 es']. apply issues_only_check, issues_only_ret.
Qed.

(** X14.  Transfer of normals.  When the target mesh has as many corners
    as the connectivity array that [getPolys] returned has entries, and
    that topology is well formed, every normal assignment [reorderMesh]
    issues carries exactly the target's corner normals, in face order,
    next to the corner enumeration of that topology: corner [i] of the
    output receives normal [i] of the target.  A run that reports no
    error has issued such an assignment, and the store accepted it. *)
Theorem reorderMesh_normals_verbatim (sourceMesh targetMesh : MObject)
  (pointOrder : list Z) (outMesh : MObject) (isMeshData : bool)
  (w : World) (status : MStatus) (w' : World) (s2 : MStatus)
  (counts connects : list Z) :
  let normals := concat (mesh_polygons (view (store w) targetMesh)) in
  reorderMesh sourceMesh targetMesh pointOrder outMesh isMeshData w
    = Some (status, w') ->
  getPolys (store w) sourceMesh pointOrder isMeshData
    = Some (s2, (counts, connects)) ->
  length normals = length connects ->
  Forall (fun c => 0 <= c) counts ->
  Z.of_nat (length connects) = sumCounts counts ->
  exists evs,
    log w' = log w ++ evs /\
    Forall (fun e => assigns_normals normals counts connects e.1) evs /\
    (status_error status = false ->
     exists pre s post,
       evs =
         pre
         ++ (FnSetFaceVertexNormals outMesh normals (cornerFaces 0 counts)
               connects, s) :: post /\
       status_error s = false).
Proof.
  intros normals Hrun Hpolys Hcorners Hpos Hsum.
  destruct (reorderMesh_normals_only _ _ _ _ _ _ _ _ _ _ _ Hrun Hpolys
              Hcorners Hpos Hsum) as (evs & Hlog & Hall).
  exists evs. split; [exact Hlog |]. split; [exact Hall |].
  intros Hok.
  unfold reorderMesh, bind, getStore, lift in Hrun.
  destruct (getPoints (store w) targetMesh pointOrder [])
    as [[s1 points]|]; [|done].
  rewrite Hpolys in Hrun.
  rewrite getFaceVertexNormals_run in Hrun. fold normals in Hrun.
  unfold setLength in Hrun.
  rewrite resize_nil, length_replicate, decide_True in Hrun by lia.
  rewrite drop_replicate, Hcorners, Nat.sub_diag, app_nil_r in Hrun.
  unfold reorderMesh_rest, bind, getStore, lift in Hrun. simpl in Hrun.
  destruct (getFaceVertexLocks (store w) targetMesh [])
    as [[s4 locks]|]; [|done].
  destruct (getEdgeSmoothing (store w) targetMesh pointOrder ∅)
    as [[s5 es]|]; [|done].
  destruct (getUVs (store w) targetMesh []) as [[s6 uvs]|]; [|done].
  destruct (reorderMesh_build outMesh isMeshData _ _ points counts connects w)
    as [[sb wb]|] eqn:Hbuild; [|done].
  destruct (reorderMesh_build_propagates _ _ _ _ _ _ _ _ _ _ Hbuild)
    as (pre0 & Hpre0 & _).
  unfold check at 1 in Hrun. destruct (status_error sb) eqn:Hsb.
  { unfold ret in Hrun. simplify_eq. congruence. }
  destruct (reorderMesh_apply_assigns _ _ _ _ _ _ _ _ _ _ Hpos Hsum Hrun Hok)
    as (pre & s & post & Hlog' & Hs).
  exists (pre0 ++ pre), s, post. split; [|done].
  rewrite Hpre0, Hlog, <- !app_assoc in Hlog'.
  apply app_inv_head in Hlog'. rewrite Hlog'. by rewrite <- app_assoc.
Qed.

(** *** getPoints and reorderMesh on any pointOrder *)

(** The first call of a run of [reorderMesh] is the one that builds the
    mesh. *)
Lemma reorderMesh_first_call (sourceMesh targetMesh : MObject)
  (pointOrder : list Z) (outMesh : MObject) (isMeshData : bool)
  (w : World) (status : MStatus) (w' : World) :
  reorderMesh sourceMesh targetMesh pointOrder outMesh isMeshData w
    = Some (status, w') ->
  let numVertices := mesh_numVertices (view (store w) sourceMesh) in
  let numPolys := mesh_numPolygons (view (store w) sourceMesh) in
  exists s1 points s2 polyCounts polyConnects s rest,
    getPoints (store w) targetMesh pointOrder [] = Some (s1, points) /\
    getPolys (store w) sourceMesh pointOrder isMeshData
      = Some (s2, (polyCounts, polyConnects)) /\
    log w' =
      log w
      ++ ((if isMeshData
           then FnCreate numVertices numPolys points polyCounts polyConnects
                  outMesh
           else FnCreateInPlace outMesh numVertices numPolys
                  (setCast <$> take numVertices points) polyCounts
                  polyConnects), s)
         :: rest.
Proof.
  intros Hrun numVertices numPolys.
  unfold reorderMesh, bind, getStore, lift in Hrun.
  destruct (getPoints (store w) targetMesh pointOrder [])
    as [[s1 points]|]; [|done].
  destruct (getPolys (store w) sourceMesh pointOrder isMeshData)
    as [[s2 [polyCounts polyConnects]]|]; [|done].
  destruct (getFaceVertexNormals (store w) targetMesh _)
    as [[s3 normals]|]; [|done].
  unfold reorderMesh_rest, bind, getStore, lift in Hrun. simpl in Hrun.
  destruct (getFaceVertexLocks (store w) targetMesh [])
    as [[s4 locks]|]; [|done].
  destruct (getEdgeSmoothing (store w) targetMesh pointOrder ∅)
    as [[s5 es]|]; [|done].
  destruct (getUVs (store w) targetMesh []) as [[s6 uvs]|]; [|done].
  fold numVertices numPolys in Hrun.
  exists s1, points, s2, polyCounts, polyConnects.
  assert (Happly : forall w1 st wf,
             reorderMesh_apply outMesh uvs polyCounts polyConnects normals
               locks es w1 = Some (st, wf) ->
             exists evs, log wf = log w1 ++ evs).
  { intros w1 st wf Hap.
    destruct (reorderMesh_apply_propagates _ _ _ _ _ _ _ _ _ _ Hap)
      as (evs & Hlog & _). by exists evs. }
  unfold reorderMesh_build in Hrun. destruct isMeshData.
  - unfold call, check, ret in Hrun.
    destruct (exec _ (store w)) as [st1 s] eqn:Hexec.
    destruct (status_error s).
    + injection Hrun as <- <-. by exists s, [].
    + destruct (Happly _ _ _ Hrun) as (evs & Hlog).
      exists s, evs. split; [done |]. split; [done |].
      rewrite Hlog. simpl. by rewrite <- app_assoc.
  - unfold bind, lift in Hrun.
    destruct (for_range 0 numVertices (reorderMesh_cast points) _)
      as [fp|] eqn:Hcast; [|done].
    apply reorderMesh_cast_loop_Some in Hcast. subst fp.
    unfold call, check, ret in Hrun.
    destruct (exec _ (store w)) as [st1 s] eqn:Hexec. simpl in Hrun.
    destruct (Happly _ _ _ Hrun) as (evs & Hlog).
    exists s, evs. split; [done |]. split; [done |].
    rewrite Hlog. simpl. by rewrite <- app_assoc.
Qed.


(** C5, amended.  The code does not examine [pointOrder] and has no
    error to report for it.  [getPoints] returns exactly when each of the
    first [numVertices] entries of [pointOrder] exists and is an index of
    the output array, bijection or not; it then reports success, a cell
    that entries point to holds the last point sent to it, and a cell no
    entry points to keeps what [setLength] left there.  Any other
    [pointOrder] makes it access an array out of range.  [reorderMesh]
    adds no check of its own: whenever it returns, its first call has
    built the output mesh from the points [getPoints] produced. *)
Theorem getPoints_unvalidated (st : Store) (mesh : MObject)
  (pointOrder : list Z) (outPoints : list Point) :
  let targetPoints := mesh_getPoints (view st mesh) in
  let n := length targetPoints in
  mesh_numVertices (view st mesh) = n ->
  (is_Some (getPoints st mesh pointOrder outPoints) <->
   forall i : nat, (i < n)%nat ->
     exists k, pointOrder !! i = Some k /\ 0 <= k < Z.of_nat n) /\
  (forall status newPoints,
      getPoints st mesh pointOrder outPoints = Some (status, newPoints) ->
      status = kSuccess /\ length newPoints = n /\
      (forall (i : nat) (k : Z),
          (i < n)%nat -> pointOrder !! i = Some k ->
          (forall (i' : nat) (k' : Z),
              (i < i' < n)%nat -> pointOrder !! i' = Some k' -> k' <> k) ->
          newPoints !! Z.to_nat k = targetPoints !! i) /\
      (forall c : nat,
          (forall i : nat, (i < n)%nat ->
                           pointOrder !! i <> Some (Z.of_nat c)) ->
          newPoints !! c = setLength fillPoint n outPoints !! c)) /\
  (forall (sourceMesh outMesh : MObject) (isMeshData : bool) (w : World)
          (status : MStatus) (w' : World),
      store w = st ->
      reorderMesh sourceMesh mesh pointOrder outMesh isMeshData w
        = Some (status, w') ->
      exists s1 points s2 polyCounts polyConnects s rest,
        getPoints st mesh pointOrder [] = Some (s1, points) /\
        getPolys st sourceMesh pointOrder isMeshData
          = Some (s2, (polyCounts, polyConnects)) /\
        log w' =
          log w
          ++ ((if isMeshData
               then FnCreate (mesh_numVertices (view st sourceMesh))
                      (mesh_numPolygons (view st sourceMesh)) points
                      polyCounts polyConnects outMesh
               else FnCreateInPlace outMesh
                      (mesh_numVertices (view st sourceMesh))
                      (mesh_numPolygons (view st sourceMesh))
                      (setCast <$>
                         take (mesh_numVertices (view st sourceMesh)) points)
                      polyCounts polyConnects), s)
             :: rest).
Proof.
  intros targetPoints n Hn.
  set (out0 := setLength fillPoint n outPoints).
  assert (Hout0 : length out0 = n) by apply setLength_length.
  pose proof (getPoints_inv_start targetPoints pointOrder out0) as Hstart.
  rewrite Hout0 in Hstart.
  assert (Hrun : forall newPoints,
             for_range 0 n (getPoints_body targetPoints pointOrder) out0
               = Some newPoints ->
             getPoints_inv targetPoints pointOrder n n newPoints).
  { intros newPoints Hloop.
    apply (for_range_run (getPoints_inv targetPoints pointOrder n) _ _ _ _ _
             Hloop Hstart).
    intros j t t' _. apply getPoints_inv_step. }
  assert (Hkeep : forall newPoints,
             for_range 0 n (getPoints_body targetPoints pointOrder) out0
               = Some newPoints ->
             forall c : nat,
               (forall i : nat, (i < n)%nat ->
                                pointOrder !! i <> Some (Z.of_nat c)) ->
               newPoints !! c = out0 !! c).
  { intros newPoints Hloop.
    apply (for_range_run
      (fun j out => forall c : nat,
           (forall i : nat, (i < j)%nat ->
                            pointOrder !! i <> Some (Z.of_nat c)) ->
           out !! c = out0 !! c)
      (getPoints_body targetPoints pointOrder) n 0%nat out0 newPoints Hloop).
    - done.
    - intros j t t' Hj Hprev (p & k & _ & Hk & Hkr & ->)%getPoints_body_Some
        c Hc.
      rewrite list_lookup_insert_ne.
      + apply Hprev. intros i Hi. apply Hc. lia.
      + intros Heq. apply (Hc j); [lia |]. rewrite Hk. f_equal. lia. }
  split; [|split].
  - unfold getPoints. rewrite Hn. fold targetPoints out0. split.
    + intros [[status newPoints] Hsome] i Hi.
      destruct (for_range 0 n (getPoints_body targetPoints pointOrder) out0)
        as [out|] eqn:Hloop; [|done].
      destruct (Hrun out eq_refl) as (_ & Hrange & _).
      destruct (pointOrder !! i) as [k|] eqn:Hk.
      * exists k. split; [done |]. by apply (Hrange i).
      * exfalso.
        destruct (for_range_body_defined _ _ _ _ _ Hloop i)
          as (t & t' & Hbody); [lia |].
        apply getPoints_body_Some in Hbody as (? & ? & _ & ? & _).
        congruence.
    + intros Hrange.
      destruct (for_range_invariant (getPoints_inv targetPoints pointOrder n)
                  (getPoints_body targetPoints pointOrder) n 0%nat out0
                  Hstart) as (out & -> & _); [|simpl; by eexists].
      intros j t Hj Ht.
      destruct (lookup_lt_is_Some_2 targetPoints j) as [p Hp];
        [fold n; lia |].
      destruct (Hrange j) as (k & Hk & Hkr); [lia |].
      assert (Hb : getPoints_body targetPoints pointOrder j t
                   = Some (<[Z.to_nat k := p]> t)).
      { apply getPoints_body_Some. exists p, k. destruct Ht as [-> _].
        done. }
      exists (<[Z.to_nat k := p]> t). split; [done |].
      by eapply getPoints_inv_step.
  - unfold getPoints. rewrite Hn. fold targetPoints out0.
    intros status newPoints Hsome.
    destruct (for_range 0 n (getPoints_body targetPoints pointOrder) out0)
      as [out|] eqn:Hloop; [|done].
    simpl in Hsome. simplify_eq.
    destruct (Hrun newPoints eq_refl) as (Hlen & _ & Hcells).
    split; [done |]. split; [done |]. split; [done |].
    by apply Hkeep.
  - intros sourceMesh outMesh isMeshData w status w' <- Hreorder.
    by apply (reorderMesh_first_call _ _ _ _ _ _ _ _ Hreorder).
Qed.

(** *** First failure, continued *)







End PolyReorder.

(** ** getPoints whatever the filler *)

(** X2.  On a bijection [getPoints] overwrites every cell of an output
    of [numVertices] cells: whatever the output array held and whatever
    value [setLength] puts in new cells, the result is the same array,
    it has [numVertices] cells, and cell [j] holds the position of the
    old point mapped to [j]. *)
Theorem getPoints_overwrites_every_cell {Point Vector Float Store : Type}
  (view : Store -> MObject -> MeshData Point Vector Float) (st : Store)
  (mesh : MObject) (pointOrder : list Z) :
  let targetPoints := mesh_getPoints (view st mesh) in
  mesh_numVertices (view st mesh) = length targetPoints ->
  bijection_on (length targetPoints) pointOrder ->
  exists newPoints : list Point,
    length newPoints = mesh_numVertices (view st mesh) /\
    (forall (filler : Point) (outPoints : list Point),
        getPoints filler view st mesh pointOrder outPoints
          = Some (kSuccess, newPoints)) /\
    (forall j : nat,
        (j < mesh_numVertices (view st mesh))%nat ->
        exists (i : nat) (p : Point),
          pointOrder !! i = Some (Z.of_nat j) /\
          targetPoints !! i = Some p /\
          newPoints !! j = Some p).
Proof.
  intros targetPoints Hn Hbij.
  assert (Hcell : forall (filler : Point) (out : list Point),
             exists np,
               getPoints filler view st mesh pointOrder out
                 = Some (kSuccess, np) /\
               length np = length targetPoints /\
               forall (i : nat) (k : Z),
                 pointOrder !! i = Some k ->
                 np !! Z.to_nat k = targetPoints !! i).
  { intros filler out. unfold getPoints. rewrite Hn. fold targetPoints.
    destruct (getPoints_loop_bijection targetPoints pointOrder
                (setLength filler (length targetPoints) out) Hbij
                (setLength_length _ _ _))
      as (np & Hrun & Hlen & Hall).
    exists np. by rewrite Hrun. }
  assert (Hdet : forall np np' : list Point,
             length np = length targetPoints ->
             length np' = length targetPoints ->
             (forall (i : nat) (k : Z), pointOrder !! i = Some k ->
                                        np !! Z.to_nat k = targetPoints !! i) ->
             (forall (i : nat) (k : Z), pointOrder !! i = Some k ->
                                        np' !! Z.to_nat k = targetPoints !! i) ->
             np = np').
  { intros np np' Hlen Hlen' Hall Hall'. apply list_eq. intros j.
    destruct (decide (j < length targetPoints)%nat) as [Hj | Hj].
    - destruct (bijection_on_surj _ _ (Z.of_nat j) Hbij) as [i Hi]; [lia |].
      specialize (Hall i _ Hi). specialize (Hall' i _ Hi).
      rewrite Nat2Z.id in Hall, Hall'. by rewrite Hall, Hall'.
    - rewrite !lookup_ge_None_2; [done | lia | lia]. }
  assert (Hex : exists np : list Point,
             length np = length targetPoints /\
             forall (i : nat) (k : Z),
               pointOrder !! i = Some k ->
               np !! Z.to_nat k = targetPoints !! i).
  { destruct (targetPoints !! 0%nat) as [p0|] eqn:H0.
    - destruct (Hcell p0 []) as (np & _ & Hlen & Hall). by exists np.
    - apply lookup_ge_None in H0. exists []. split; [simpl; lia |].
      intros i k _. rewrite lookup_nil. symmetry.
      apply lookup_ge_None. lia. }
  destruct Hex as (newPoints & Hlen & Hall).
  exists newPoints. split; [congruence |]. split.
  - intros filler out.
    destruct (Hcell filler out) as (np & Hrun & Hlen' & Hall').
    rewrite Hrun. do 2 f_equal. by apply Hdet.
  - intros j Hj. rewrite Hn in Hj.
    destruct (bijection_on_surj _ _ (Z.of_nat j) Hbij) as [i Hi]; [lia |].
    destruct (lookup_lt_is_Some_2 newPoints j) as [p Hp]; [lia |].
    exists i, p. split; [done |]. split; [|done].
    specialize (Hall i _ Hi). rewrite Nat2Z.id in Hall. congruence.
Qed.


(** ** The statements on the test meshes *)


(** On the tetrahedron with point order [2,0,3,1], old point 1 lands at
    new index 0, old point 3 at new index 1 and old point 2 at new
    index 3. *)
Lemma tetrahedron_points_remapped :
  exists newPoints,
    getPoints 0 Example.view Example.tetraStore 0%nat Example.tetraOrder []
      = Some (kSuccess, newPoints) /\
    newPoints !! 0%nat = Some 101 /\ newPoints !! 1%nat = Some 103 /\
    newPoints !! 3%nat = Some 102.
Proof.
  destruct (getPoints_remap 0 Example.view Example.tetraStore
              0%nat Example.tetraOrder [])
    as (newPoints & Hrun & _ & Hall).
  - reflexivity.
  - by_evaluation.
  - exists newPoints. split; [exact Hrun |]. split; [|split].
    + exact (Hall 1%nat 0 eq_refl).
    + exact (Hall 3%nat 1 eq_refl).
    + exact (Hall 2%nat 3 eq_refl).
Defined.

(** C1, as stated, fails on its own example: with point order [2,0,3,1]
    the cell at new index 1 does not hold old point 2's position. *)
Lemma tetrahedron_index1_not_point2 :
  ~ (forall newPoints,
       getPoints 0 Example.view Example.tetraStore 0%nat Example.tetraOrder []
         = Some (kSuccess, newPoints) ->
       newPoints !! 0%nat = mesh_getPoints Example.tetrahedron !! 1%nat /\
       newPoints !! 1%nat = mesh_getPoints Example.tetrahedron !! 2%nat).
Proof.
  intros H. specialize (H [101; 103; 100; 102] eq_refl).
  destruct H as [_ H]. discriminate H.
Qed.

(** The tetrahedron's topology through point order [2,0,3,1]: entries
    referencing old vertex 1 become 0. *)
Lemma tetrahedron_topology_remapped :
  getPolys Example.view Example.tetraStore 0%nat Example.tetraOrder true
    = Some (kSuccess, ([3; 3; 3; 3], [2; 0; 3; 2; 1; 0; 0; 1; 3; 3; 1; 2])) /\
  is_Some (getPolys Example.view Example.tetraStore 0%nat Example.tetraOrder
             true).
Proof.
  split; [reflexivity |].
  apply (getPolys_remap Example.view Example.tetraStore 0%nat
           Example.tetraOrder true kSuccess [3; 3; 3; 3]
           [0; 1; 2; 0; 3; 1; 1; 3; 2; 2; 3; 0]).
  - reflexivity.
  - intros _. by_evaluation.
Defined.

(** The contract of [getPoints] holds for [tetraOrder]. *)
Example tetrahedron_points_run :
  getPoints 0 Example.view Example.tetraStore 0%nat Example.tetraOrder []
  = Some (kSuccess, [101; 103; 100; 102]).
Proof. reflexivity. Qed.

(** The tetrahedron's corners. *)
Lemma tetrahedron_corners_enumerated :
  exists faceList vertexList,
    getFaceVertexList 0 [3; 3; 3; 3] [0; 1; 2; 0; 3; 1; 1; 3; 2; 2; 3; 0] [] []
      = Some (faceList, vertexList) /\
    faceList = [0; 0; 0; 1; 1; 1; 2; 2; 2; 3; 3; 3] /\
    length vertexList = 12%nat.
Proof.
  destruct (getFaceVertexList_corners 0 [3; 3; 3; 3]
              [0; 1; 2; 0; 3; 1; 1; 3; 2; 2; 3; 0] [] [])
    as (faceList & vertexList & Hrun & _ & Hlen & Hfaces & _).
  - by_evaluation.
  - reflexivity.
  - exists faceList, vertexList. split; [exact Hrun |].
    split; [exact Hfaces |]. apply Nat2Z.inj. exact Hlen.
Defined.

(** A negative count is outside the statement: the face contributes no
    corner, yet it lowers the sum, and the enumeration leaves the
    arrays. *)
Example negative_count_leaves_arrays :
  getFaceVertexList 0 [1; -1] [] [] [] = None.
Proof. reflexivity. Qed.

(** The quad with corners 0 and 2 locked: one unlock call with corners 1
    and 3, then one lock call with corners 0 and 2. *)
Lemma quad_locks_partitioned :
  exists status w',
    setFaceVertexLocks 0 Example.view (Example.exec Example.allSucceed) 0%nat
      Example.quadLocks (mkWorld Example.quadStore [])
      = Some (status, w') /\
    log w' = [(FnUnlockFaceVertexNormals 0%nat [0; 0] [1; 3], kSuccess);
              (FnLockFaceVertexNormals 0%nat [0; 0] [0; 2], kSuccess)].
Proof.
  destruct (setFaceVertexLocks_partition 0 Example.view
              (Example.exec Example.allSucceed) 0%nat Example.quadLocks
              (mkWorld Example.quadStore []) [4] [0; 1; 2; 3])
    as (_ & status & w' & su & sl & Hrun & _).
  - reflexivity.
  - by_evaluation.
  - reflexivity.
  - simpl. lia.
  - exists status, w'. split; [exact Hrun |].
    vm_compute in Hrun. injection Hrun as _ <-. reflexivity.
Defined.

(** Remapping the tetrahedron's points with [tetraOrder] and the result
    with the inverse order gives the original points. *)
Lemma tetrahedron_round_trip :
  getPoints 0 Example.view Example.pairStore 1%nat Example.tetraInverse []
  = Some (kSuccess, [100; 101; 102; 103]).
Proof.
  apply (getPoints_round_trip 0 Example.view Example.pairStore 0%nat 1%nat
           Example.tetraOrder Example.tetraInverse [] []
           [101; 103; 100; 102]).
  - reflexivity.
  - by_evaluation.
  - split; [reflexivity |]. intros i k Hk.
    destruct i as [|[|[|[|i]]]]; simpl in Hk; try discriminate Hk;
      injection Hk as <-; reflexivity.
  - reflexivity.
  - reflexivity.
  - reflexivity.
Defined.

(** A point order that is no bijection but stays in range is accepted. *)
Lemma constant_order_accepted :
  is_Some (getPoints 0 Example.view Example.tetraStore 0%nat
             Example.constantOrder []).
Proof.
  destruct (getPoints_unvalidated id 0 0 0 0 Example.view
              (Example.exec Example.allSucceed) Example.createdName
              Example.tetraStore 0%nat Example.constantOrder [] eq_refl)
    as [[_ Hsome] _].
  apply Hsome. intros i Hi. exists 0.
  destruct i as [|[|[|[|i]]]]; simpl in *; try lia; split; (reflexivity || lia).
Defined.

(** C5, as stated, fails: [constantOrder] is no bijection over [0, 4),
    yet [reorderMesh] reports success and has built the output mesh, with
    old point 3 at index 0 and the other cells never written. *)
Lemma non_bijection_builds_mesh :
  ~ bijection_on 4 Example.constantOrder /\
  exists w',
    reorderMesh id 0 0 0 0 Example.view (Example.exec Example.allSucceed)
      Example.createdName 0%nat 0%nat Example.constantOrder 1%nat true
      (mkWorld Example.tetraStore [])
      = Some (kSuccess, w') /\
    head (log w')
    = Some (FnCreate 4 4 [103; 0; 0; 0] [3; 3; 3; 3]
              [0; 0; 0; 0; 0; 0; 0; 0; 0; 0; 0; 0] 1%nat, kSuccess).
Proof.
  split.
  - intros (_ & Hnd & _). apply NoDup_cons in Hnd as [Hin _].
    apply Hin. repeat constructor.
  - eexists. split; [vm_compute; reflexivity | reflexivity].
Qed.

(** The tetrahedron has twelve corners: an array of twelve cells is
    filled, an array of eleven is too short. *)
Lemma tetrahedron_normals_fit :
  getFaceVertexNormals Example.view Example.tetraStore 0%nat (replicate 12 0)
  = Some (kSuccess, [10; 11; 12; 20; 21; 22; 30; 31; 32; 40; 41; 42]) /\
  ~ is_Some (getFaceVertexNormals Example.view Example.tetraStore 0%nat
               (replicate 11 0)).
Proof.
  split.
  - destruct (getFaceVertexNormals_presized id 0 0 0 0 Example.view
                (Example.exec Example.allSucceed) Example.createdName
                0%nat 0%nat Example.tetraOrder 1%nat true
                (mkWorld Example.tetraStore []) (replicate 12 0))
      as (_ & Hfill & _).
    apply Hfill. simpl. lia.
  - destruct (getFaceVertexNormals_presized id 0 0 0 0 Example.view
                (Example.exec Example.allSucceed) Example.createdName
                0%nat 0%nat Example.tetraOrder 1%nat true
                (mkWorld Example.tetraStore []) (replicate 11 0))
      as ([Hfit _] & _).
    intros Hsome. specialize (Hfit Hsome). simpl in Hfit. lia.
Defined.

(** C10, as stated, fails: with the triangle as source and the quad as
    target, [getPoints] and [getPolys] return, [reorderMesh] sizes the
    array of normals to the three entries of the source connectivity, and
    the four corners of the target do not fit. *)
Lemma source_sized_array_too_short :
  is_Some (getPoints 0 Example.view Example.triangleQuadStore 1%nat
             Example.identityOrder []) /\
  getPolys Example.view Example.triangleQuadStore 0%nat Example.identityOrder
    true = Some (kSuccess, ([3], [0; 1; 2])) /\
  getFaceVertexNormals Example.view Example.triangleQuadStore 1%nat
    (setLength 0 (length [0; 1; 2]) []) = None /\
  reorderMesh id 0 0 0 0 Example.view (Example.exec Example.allSucceed)
    Example.createdName 0%nat 1%nat Example.identityOrder 2%nat true
    (mkWorld Example.triangleQuadStore []) = None.
Proof.
  split; [by eexists |]. split; [reflexivity |]. split; reflexivity.
Qed.



(** ** The further properties on the test meshes *)

(** The tetrahedron has twelve normal ids; those with an even id are
    locked. *)
Lemma tetrahedron_lock_flags :
  exists lockedList,
    getFaceVertexLocks 0 Example.view Example.tetraStore 0%nat [7; 7]
      = Some (kSuccess, lockedList) /\
    length lockedList = 12%nat /\
    lockedList !! 0%nat = Some 1 /\ lockedList !! 1%nat = Some 0.
Proof.
  destruct (getFaceVertexLocks_flags 0 Example.view Example.tetraStore 0%nat
              [7; 7] kSuccess [3; 3; 3; 3]
              [0; 1; 2; 3; 4; 5; 6; 7; 8; 9; 10; 11] eq_refl eq_refl)
    as (lockedList & Hrun & Hlen & Hflags & _).
  exists lockedList. split; [exact Hrun |]. split; [exact Hlen |].
  split; [exact (Hflags 0%nat 0 eq_refl) | exact (Hflags 1%nat 1 eq_refl)].
Defined.

(** Whatever the output array held and whatever fills new cells, the
    remapped tetrahedron is the same four points. *)
Lemma tetrahedron_cells_overwritten :
  exists newPoints,
    length newPoints = 4%nat /\
    (forall filler outPoints,
        getPoints filler Example.view Example.tetraStore 0%nat
          Example.tetraOrder outPoints = Some (kSuccess, newPoints)) /\
    getPoints 7 Example.view Example.tetraStore 0%nat Example.tetraOrder
      [1; 2; 3; 4; 5; 6] = Some (kSuccess, newPoints).
Proof.
  destruct (getPoints_overwrites_every_cell Example.view Example.tetraStore
              0%nat Example.tetraOrder) as (newPoints & Hlen & Hany & _).
  - reflexivity.
  - by_evaluation.
  - exists newPoints. split; [exact Hlen |]. split; [exact Hany |].
    apply Hany.
Defined.

(** On the tetrahedron every corner keeps its position. *)
Lemma tetrahedron_corner_positions :
  exists newPoints newConnects,
    getPoints 0 Example.view Example.tetraStore 0%nat Example.tetraOrder []
      = Some (kSuccess, newPoints) /\
    getPolys Example.view Example.tetraStore 0%nat Example.tetraOrder true
      = Some (kSuccess, ([3; 3; 3; 3], newConnects)) /\
    exists w, newConnects !! 4%nat = Some w /\
              newPoints !! Z.to_nat w = Some 103.
Proof.
  destruct (remap_keeps_corner_positions 0 Example.view Example.tetraStore
              0%nat 0%nat Example.tetraOrder [] kSuccess [3; 3; 3; 3]
              [0; 1; 2; 0; 3; 1; 1; 3; 2; 2; 3; 0])
    as (newPoints & newConnects & Hpoints & Hpolys & _ & Hcorner).
  - reflexivity.
  - by_evaluation.
  - reflexivity.
  - by_evaluation.
  - exists newPoints, newConnects. split; [exact Hpoints |].
    split; [exact Hpolys |]. exact (Hcorner 4%nat 3 eq_refl).
Defined.

(** The quad has four corners and four flags are handed in. *)
Lemma quad_flags_suffice :
  is_Some (setFaceVertexLocks 0 Example.view
             (Example.exec Example.allSucceed) 0%nat Example.quadLocks
             (mkWorld Example.quadStore [])).
Proof.
  apply (setFaceVertexLocks_flag_per_corner 0 Example.view
           (Example.exec Example.allSucceed) 0%nat Example.quadLocks
           (mkWorld Example.quadStore []) kSuccess [4] [0; 1; 2; 3]).
  - reflexivity.
  - reflexivity.
  - by_evaluation.
  - reflexivity.
  - simpl. lia.
Defined.

(** After [setEdgeSmoothing] on the tetrahedron with an empty map, the
    key of its first edge is present with [false]. *)
Lemma tetrahedron_map_grows :
  exists es' w',
    setEdgeSmoothing Example.view (Example.exec Example.allSucceed) 0%nat ∅
      (mkWorld Example.tetraStore []) = Some ((kSuccess, es'), w') /\
    es' !! twoIntKey 0 1 = Some false /\ es' !! twoIntKey 1 0 = None.
Proof.
  destruct (setEdgeSmoothing Example.view (Example.exec Example.allSucceed)
              0%nat ∅ (mkWorld Example.tetraStore []))
    as [[[status es'] w']|] eqn:Hrun; [|vm_compute in Hrun; discriminate Hrun].
  pose proof (setEdgeSmoothing_grows_map Example.view
                (Example.exec Example.allSucceed) 0%nat ∅
                (mkWorld Example.tetraStore []) status es' w' Hrun) as Hmap.
  assert (status = kSuccess) as ->.
  { vm_compute in Hrun. by injection Hrun as <- _ _. }
  exists es', w'. split; [reflexivity |]. split.
  - rewrite (Hmap (twoIntKey 0 1)). reflexivity.
  - rewrite (Hmap (twoIntKey 1 0)). reflexivity.
Defined.

(** The remapped tetrahedron receives the smoothing of the tetrahedron,
    edge by edge. *)
Lemma tetrahedron_smoothing_transferred :
  exists es es' w' calls,
    getEdgeSmoothing Example.view Example.pairStore 0%nat Example.tetraOrder ∅
      = Some (kSuccess, es) /\
    setEdgeSmoothing Example.view (Example.exec Example.allSucceed) 1%nat es
      (mkWorld Example.pairStore []) = Some ((kSuccess, es'), w') /\
    (log w').*1 = [] ++ calls /\
    calls !! 0%nat = Some (ItSetSmoothing 1%nat 0 true) /\
    calls !! 1%nat = Some (ItSetSmoothing 1%nat 1 false).
Proof.
  destruct (getEdgeSmoothing Example.view Example.pairStore 0%nat
              Example.tetraOrder ∅) as [[status es]|] eqn:Hget;
    [|vm_compute in Hget; discriminate Hget].
  assert (status = kSuccess) as ->.
  { unfold getEdgeSmoothing in Hget.
    destruct (for_each _ _ _ _); simpl in Hget; congruence. }
  destruct (edge_smoothing_transfer Example.view
              (Example.exec Example.allSucceed) 0%nat 1%nat
              Example.tetraOrder (mkWorld Example.pairStore []) kSuccess es)
    as (es' & w' & calls & Hset & Hlog & _ & Hcalls).
  - exact Hget.
  - by_evaluation.
  - by_evaluation.
  - exists es, es', w', calls. split; [reflexivity |].
    split; [exact Hset |]. split; [exact Hlog |].
    split; [exact (Hcalls 0%nat _ eq_refl) | exact (Hcalls 1%nat _ eq_refl)].
Defined.

(** Normals on the quad: the assignment, then the unlock of all four
    corners. *)
Lemma quad_normals_assigned :
  exists status w' s1,
    setFaceVertexNormals 0 (Example.exec Example.allSucceed) 0%nat [4]
      [0; 1; 2; 3] [50; 51; 52; 53] (mkWorld Example.quadStore [])
      = Some (status, w') /\
    ((status_error s1 = true /\ status = s1 /\
      log w' = [] ++ [(FnSetFaceVertexNormals 0%nat [50; 51; 52; 53]
                         [0; 0; 0; 0] [0; 1; 2; 3], s1)]) \/
     (status_error s1 = false /\
      exists s2,
        log w' = [] ++ [(FnSetFaceVertexNormals 0%nat [50; 51; 52; 53]
                           [0; 0; 0; 0] [0; 1; 2; 3], s1);
                        (FnUnlockFaceVertexNormals 0%nat [0; 0; 0; 0]
                           [0; 1; 2; 3], s2)] /\
        status = if status_error s2 then s2 else kSuccess)).
Proof.
  apply (setFaceVertexNormals_calls 0 (Example.exec Example.allSucceed) 0%nat
           [4] [0; 1; 2; 3] [50; 51; 52; 53] (mkWorld Example.quadStore [])).
  - by_evaluation.
  - reflexivity.
Defined.

(** The first call of [reorderMesh] on the tetrahedron builds the mesh
    from the remapped points and topology. *)
Lemma tetrahedron_built_first :
  exists status w' s rest,
    reorderMesh id 0 0 0 0 Example.view (Example.exec Example.allSucceed)
      Example.createdName 0%nat 0%nat Example.tetraOrder 1%nat true
      (mkWorld Example.tetraStore []) = Some (status, w') /\
    log w' = [] ++ (FnCreate 4 4 [101; 103; 100; 102] [3; 3; 3; 3]
                      [2; 0; 3; 2; 1; 0; 0; 1; 3; 3; 1; 2] 1%nat, s) :: rest.
Proof.
  destruct (reorderMesh id 0 0 0 0 Example.view
              (Example.exec Example.allSucceed) Example.createdName 0%nat
              0%nat Example.tetraOrder 1%nat true
              (mkWorld Example.tetraStore []))
    as [[status w']|] eqn:Hrun; [|vm_compute in Hrun; discriminate Hrun].
  destruct (reorderMesh_builds_first id 0 0 0 0 Example.view
              (Example.exec Example.allSucceed) Example.createdName 0%nat
              0%nat Example.tetraOrder 1%nat true
              (mkWorld Example.tetraStore []) status w' Hrun)
    as (s1 & points & s2 & counts & connects & s & rest & Hpoints & Hpolys
        & Hlog).
  vm_compute in Hpoints. injection Hpoints as _ <-.
  vm_compute in Hpolys. injection Hpolys as _ <- <-.
  exists status, w', s, rest. split; [reflexivity | exact Hlog].
Defined.

(** Every call of [reorderMesh] on the tetrahedron goes to handle 1, none
    to handle 0, which is both the source and the target. *)
Lemma tetrahedron_output_only :
  exists status w' evs,
    reorderMesh id 0 0 0 0 Example.view (Example.exec Example.allSucceed)
      Example.createdName 0%nat 0%nat Example.tetraOrder 1%nat true
      (mkWorld Example.tetraStore []) = Some (status, w') /\
    log w' = [] ++ evs /\
    Forall (fun e => callTarget e.1 = 1%nat) evs /\
    Forall (fun e => callTarget e.1 <> 0%nat) evs.
Proof.
  destruct (reorderMesh id 0 0 0 0 Example.view
              (Example.exec Example.allSucceed) Example.createdName 0%nat
              0%nat Example.tetraOrder 1%nat true
              (mkWorld Example.tetraStore []))
    as [[status w']|] eqn:Hrun; [|vm_compute in Hrun; discriminate Hrun].
  destruct (reorderMesh_writes_output_only id 0 0 0 0 Example.view
              (Example.exec Example.allSucceed) Example.createdName 0%nat
              0%nat Example.tetraOrder 1%nat true
              (mkWorld Example.tetraStore []) status w' Hrun)
    as (evs & Hlog & Hall & Hsource & _).
  exists status, w', evs. split; [reflexivity |]. split; [exact Hlog |].
  split; [exact Hall |]. apply Hsource. discriminate.
Defined.

(** The normals assigned by [reorderMesh] on the tetrahedron are the
    tetrahedron's, and they are assigned. *)
Lemma tetrahedron_normals_verbatim :
  exists status w' evs,
    reorderMesh id 0 0 0 0 Example.view (Example.exec Example.allSucceed)
      Example.createdName 0%nat 0%nat Example.tetraOrder 1%nat true
      (mkWorld Example.tetraStore []) = Some (status, w') /\
    log w' = [] ++ evs /\
    Forall (fun e =>
              assigns_normals [10; 11; 12; 20; 21; 22; 30; 31; 32; 40; 41; 42]
                [3; 3; 3; 3] [2; 0; 3; 2; 1; 0; 0; 1; 3; 3; 1; 2] e.1) evs /\
    exists pre s post,
      evs =
        pre
        ++ (FnSetFaceVertexNormals 1%nat
              [10; 11; 12; 20; 21; 22; 30; 31; 32; 40; 41; 42]
              [0; 0; 0; 1; 1; 1; 2; 2; 2; 3; 3; 3]
              [2; 0; 3; 2; 1; 0; 0; 1; 3; 3; 1; 2], s) :: post /\
      status_error s = false.
Proof.
  destruct (reorderMesh id 0 0 0 0 Example.view
              (Example.exec Example.allSucceed) Example.createdName 0%nat
              0%nat Example.tetraOrder 1%nat true
              (mkWorld Example.tetraStore []))
    as [[status w']|] eqn:Hrun; [|vm_compute in Hrun; discriminate Hrun].
  destruct (reorderMesh_normals_verbatim id 0 0 0 0 Example.view
              (Example.exec Example.allSucceed) Example.createdName 0%nat
              0%nat Example.tetraOrder 1%nat true
              (mkWorld Example.tetraStore []) status w' kSuccess
              [3; 3; 3; 3] [2; 0; 3; 2; 1; 0; 0; 1; 3; 3; 1; 2] Hrun)
    as (evs & Hlog & Hall & Hissued).
  - reflexivity.
  - reflexivity.
  - by_evaluation.
  - reflexivity.
  - exists status, w', evs. split; [reflexivity |]. split; [exact Hlog |].
    split; [exact Hall |]. apply Hissued.
    pose proof Hrun as Hstatus. vm_compute in Hstatus.
    injection Hstatus as Hstatus _. rewrite <- Hstatus. reflexivity.
Defined.
